(** * aerframe_budget_geofence: a shallow embedding of the sample geofence

    The script polls the AerFrame location API for one device, keeps the
    first present location as a baseline and logs when a later location
    differs from it.  This file embeds [is_location_present],
    [location_changed], [get_location_and_make_noise] and [begin_loop] of
    [sample/aerframe_budget_geofence.py] and proves properties of them. *)

From stdpp Require Import gmap strings list.
From Stdlib Require Import ZArith Lia.

Open Scope string_scope.
Open Scope list_scope.
Open Scope Z_scope.

(** ** Python values *)

(** What a field of a location dict holds.  On [None], integers and strings
    Python's [==] is structural equality (booleans, which equal 0 and 1, and
    floats, for which [nan != nan], are left out). *)
Inductive atom : Type :=
  | ANone
  | AInt (z : Z)
  | AStr (s : string).

#[global] Instance atom_eq_dec : EqDecision atom.
Proof. solve_decision. Defined.

(** What a variable of the script holds: a scalar (among them [None]) or a
    dict with string keys, as decoded from the API's JSON answer. *)
Inductive value : Type :=
  | Atom (a : atom)
  | Dict (d : gmap string atom).

#[global] Instance value_eq_dec : EqDecision value.
Proof. solve_decision. Defined.

Abbreviation None_ := (Atom ANone).

(** [v is None] *)
Definition is_None (v : value) : bool :=
  match v with
  | Atom ANone => true
  | _ => false
  end.

(** ** Exceptions *)

Inductive exn : Type :=
  | ApiException (detail : string)
  | KeyError (key : string)
  | TypeError (detail : string)
  | OtherException (name : string).

(** Does [except ApiException] catch it? *)
Definition is_ApiException (e : exn) : bool :=
  match e with
  | ApiException _ => true
  | _ => false
  end.

(** ** The logger *)

Inductive level : Type := DEBUG | INFO | WARNING | ERROR.

#[global] Instance level_eq_dec : EqDecision level.
Proof. solve_decision. Defined.

(** One constructor per message template of the script; the arguments are the
    values interpolated by the f-string, or the exception given as
    [exc_info]. *)
Inductive message : Type :=
  | LatestLocation (new_location : value)
  | OriginalLocation (original_location : value)
  | DeviceMoved
  | MovedFrom (attribute : string) (old new : atom)
  | ApiProblem (e : exn)
  | HorriblyWrong (e : exn).

Record log_record : Type := LogRecord { severity : level; msg : message }.

(** ** The scheduler's events *)

(** The argument tuple of a scheduled [get_location_and_make_noise]; the
    scheduler itself, also in the tuple, is the one scheduler of [world]. *)
Record arguments : Type := Args {
  account_id : string;
  api_key : string;
  device_id : string;
  device_id_type : string;
  original_location : value
}.

(** An event of [sched]; its action is always
    [get_location_and_make_noise]. *)
Record event : Type := Event {
  time : Z;
  priority : Z;
  sequence : nat;
  argument : arguments
}.

(** ** The state of the process *)

(** [clock] is what [time.time()] returns, in whole seconds; [logger] the calls
    made on the module's logger (the one [configure_logging] installs before
    the script calls [begin_loop]), oldest first; [queue] and [counter] the
    scheduler's pending events and its sequence counter; [requests] counts the
    calls of [aerframesdk.get_location]. *)
Record world : Type := World {
  clock : Z;
  logger : list log_record;
  queue : list event;
  counter : nat;
  requests : nat
}.

Definition set_clock (t : Z) (w : world) : world :=
  World t (logger w) (queue w) (counter w) (requests w).

Definition set_logger (l : list log_record) (w : world) : world :=
  World (clock w) l (queue w) (counter w) (requests w).

Definition set_queue (q : list event) (w : world) : world :=
  World (clock w) (logger w) q (counter w) (requests w).

(** ** Computations that change a state and may raise *)

Definition M (S A : Type) : Type := S -> (A + exn) * S.

Definition ret {S A} (a : A) : M S A := fun s => (inl a, s).

Definition raise {S A} (e : exn) : M S A := fun s => (inr e, s).

Definition bind {S A B} (m : M S A) (k : A -> M S B) : M S B :=
  fun s =>
    match m s with
    | (inl a, s') => k a s'
    | (inr e, s') => (inr e, s')
    end.

Declare Scope py_scope.
Delimit Scope py_scope with py.

Notation "x <~ m ; k" := (bind m (fun x => k))
  (at level 100, m at next level, right associativity) : py_scope.
Notation "m ;; k" := (bind m (fun _ => k))
  (at level 100, right associativity) : py_scope.

Open Scope py_scope.

(** [try: body  except BaseException as e: handler e]; the state the body
    reached when it raised is the one the handler starts from. *)
Definition try_except {S A} (body : M S A) (handler : exn -> M S A) : M S A :=
  fun s =>
    match body s with
    | (inl a, s') => (inl a, s')
    | (inr e, s') => handler e s'
    end.

(** A function's frame: its one rebound local variable next to the process
    state. *)
Definition frame : Type := value * world.

(** Run a computation on the process state from inside a frame. *)
Definition call {A} (m : M world A) : M frame A :=
  fun f =>
    match m (snd f) with
    | (r, w') => (r, (fst f, w'))
    end.

Definition load : M frame value := fun f => (inl (fst f), f).

Definition store (v : value) : M frame unit := fun f => (inl tt, (v, snd f)).

(** ** Primitive operations *)

(** [v[key]] for a string [key]: a dict gives the value or raises [KeyError];
    nothing else in [value] can be indexed by a string. *)
Definition subscript {S} (v : value) (key : string) : M S atom :=
  match v with
  | Dict d =>
      match d !! key with
      | Some a => ret a
      | None => raise (KeyError key)
      end
  | Atom ANone => raise (TypeError "'NoneType' object is not subscriptable")
  | Atom (AInt _) => raise (TypeError "'int' object is not subscriptable")
  | Atom (AStr _) => raise (TypeError "string indices must be integers")
  end.

Definition log_call (l : level) (m : message) : M world unit :=
  fun w => (inl tt, set_logger (logger w ++ [LogRecord l m]) w).

Definition logger_debug := log_call DEBUG.
Definition logger_info := log_call INFO.
Definition logger_warn := log_call WARNING.
Definition logger_error := log_call ERROR.

(** ** The script *)

Definition LOCATION_REQUEST_PERIOD_SECONDS : Z := 60 * 60.

(** [is_location_present(loc)] *)
Definition is_location_present (loc : value) : M world bool :=
  mcc <~ subscript loc "mcc";
  if bool_decide (mcc = AInt 0) then ret false else ret true.

Definition attributes : list string := ["mcc"; "mnc"; "lac"; "cellId"].

(** The [for attribute in (...)] loop of [location_changed], with the local
    [result] as accumulator. *)
Fixpoint location_changed_loop (attrs : list string) (new_loc prev_loc : value)
    (result : bool) : M world bool :=
  match attrs with
  | [] => ret result
  | attribute :: rest =>
      n <~ subscript new_loc attribute;
      p <~ subscript prev_loc attribute;
      if bool_decide (n ≠ p) then
        old <~ subscript prev_loc attribute;
        new <~ subscript new_loc attribute;
        logger_warn (MovedFrom attribute old new);;
        location_changed_loop rest new_loc prev_loc true
      else
        location_changed_loop rest new_loc prev_loc result
  end.

(** [location_changed(new_loc, prev_loc)] *)
Definition location_changed (new_loc prev_loc : value) : M world bool :=
  let result := false in
  if is_None prev_loc then ret false
  else location_changed_loop attributes new_loc prev_loc result.

(** ** The environment: the location API and the scheduler *)

(** What one call of [aerframesdk.get_location] does: it takes [elapsed]
    seconds and then returns a value or raises. *)
Record response : Type := Response {
  elapsed : Z;
  outcome : value + exn
}.

(** [heapq.heappush] on the scheduler's queue, kept as a list ordered by
    [(time, priority, sequence)], least first. *)
Definition event_ltb (a b : event) : bool :=
  (time a <? time b)
  || ((time a =? time b)
      && ((priority a <? priority b)
          || ((priority a =? priority b) && (sequence a <? sequence b)%nat))).

Fixpoint heappush (q : list event) (e : event) : list event :=
  match q with
  | [] => [e]
  | x :: rest => if event_ltb e x then e :: q else x :: heappush rest e
  end.

(** [scheduler.enter(delay, priority, get_location_and_make_noise, argument)] *)
Definition scheduler_enter (delay priority : Z) (argument : arguments)
    : M world unit :=
  fun w =>
    let e := Event (clock w + delay) priority (counter w) argument in
    (inl tt,
     World (clock w) (logger w) (heappush (queue w) e) (S (counter w))
           (requests w)).

(** [time.sleep(d)], taken to last exactly [d] seconds. *)
Definition time_sleep (d : Z) : M world unit :=
  fun w => (inl tt, set_clock (clock w + d) w).

(** The argument tuple of the next invocation: the one received, with the
    current value of the local [original_location]. *)
Definition with_original_location (a : arguments) (v : value) : arguments :=
  Args (account_id a) (api_key a) (device_id a) (device_id_type a) v.

(** How one iteration of the [while True] of [scheduler.run()] ends. *)
Inductive iteration : Type :=
  | Break
  | Raise (e : exn) (w : world)
  | Continue (w : world).

(** What is seen of a run of the scheduler within a number of iterations:
    [run] returned or raised, leaving the state [w]; or the loop is still
    going, and has reached the state [w]. *)
Inductive run_result : Type :=
  | Returned (r : unit + exn) (w : world)
  | Running (w : world).

Section Geofence.

(** The answers of the location API to the first, second, ... request of the
    process (the account, key and device are the same in all of them). *)
Variable api : nat -> response.

(** [aerframesdk.get_location(account_id, api_key, device_id_type, device_id)] *)
Definition aerframesdk_get_location (account_id api_key device_id_type
    device_id : string) : M world value :=
  fun w =>
    let r := api (requests w) in
    (outcome r,
     World (clock w + elapsed r) (logger w) (queue w) (counter w)
           (S (requests w))).

(** The body of the [try] of [get_location_and_make_noise]; the frame's local
    is [original_location]. *)
Definition try_body (a : arguments) : M frame unit :=
  new_location <~ call (aerframesdk_get_location (account_id a) (api_key a)
                          (device_id_type a) (device_id a));
  call (logger_debug (LatestLocation new_location));;
  present <~ call (is_location_present new_location);
  if present then
    original_location <~ load;
    (if is_None original_location then
       store new_location;;
       original_location <~ load;
       call (logger_info (OriginalLocation original_location))
     else ret tt);;
    original_location <~ load;
    changed <~ call (location_changed new_location original_location);
    if changed then call (logger_warn DeviceMoved) else ret tt
  else ret tt.

(** The two [except] clauses, tried in order. *)
Definition handler (e : exn) : M frame unit :=
  if is_ApiException e then call (logger_error (ApiProblem e))
  else call (logger_error (HorriblyWrong e)).

(** [get_location_and_make_noise(account_id, api_key, device_id,
    device_id_type, scheduler, original_location)] *)
Definition get_location_and_make_noise (a : arguments) : M world unit :=
  fun w =>
    let body : M frame unit :=
      try_except (try_body a) handler;;
      original_location <~ load;
      call (scheduler_enter LOCATION_REQUEST_PERIOD_SECONDS 1
              (with_original_location a original_location)) in
    match body (original_location a, w) with
    | (r, f) => (r, snd f)
    end.

(** One iteration of the loop of [scheduler.run()]: stop on an empty queue;
    sleep until the first event is due; or pop it, run its action and call
    [delayfunc(0)]. *)
Definition run_iteration (w : world) : iteration :=
  match queue w with
  | [] => Break
  | e :: rest =>
      let now := clock w in
      if time e >? now then
        Continue (snd (time_sleep (time e - now) w))
      else
        match get_location_and_make_noise (argument e) (set_queue rest w) with
        | (inl _, w') => Continue (snd (time_sleep 0 w'))
        | (inr x, w') => Raise x w'
        end
  end.

(** [scheduler.run()]: [Running] with the state reached when the loop is
    still going after [fuel] iterations, otherwise how [run] ended ([inl tt]
    on an empty queue, [inr e] when an action raised [e]) and the state it
    ended in. *)
Fixpoint scheduler_run (fuel : nat) (w : world) : run_result :=
  match fuel with
  | O => Running w
  | S fuel' =>
      match run_iteration w with
      | Break => Returned (inl tt) w
      | Raise x w' => Returned (inr x) w'
      | Continue w' => scheduler_run fuel' w'
      end
  end.

(** The state after [n] iterations of the loop, if it did not end before. *)
Fixpoint iterations (n : nat) (w : world) : option world :=
  match n with
  | O => Some w
  | S n' =>
      match run_iteration w with
      | Continue w' => iterations n' w'
      | _ => None
      end
  end.

(** [begin_loop(account_id, api_key, device_id, device_id_type)], the part
    before [scheduler.run()]: a new scheduler with the first event entered. *)
Definition begin_loop_enter (account_id api_key device_id device_id_type : string)
    : M world unit :=
  fun w =>
    let scheduler := World (clock w) (logger w) [] O (requests w) in
    scheduler_enter 1 1
      (Args account_id api_key device_id device_id_type None_) scheduler.

(** [begin_loop(account_id, api_key, device_id, device_id_type)], seen for
    [fuel] iterations of the scheduler's loop. *)
Definition begin_loop (account_id api_key device_id device_id_type : string)
    (fuel : nat) (w : world) : run_result :=
  match begin_loop_enter account_id api_key device_id device_id_type w with
  | (inl _, w') => scheduler_run fuel w'
  | (inr x, w') => Returned (inr x) w'
  end.

End Geofence.

(** ** Vocabulary of the statements *)

(** The field [k] of a location record, if [v] is a dict that has it. *)
Definition field (v : value) (k : string) : option atom :=
  match v with
  | Dict d => d !! k
  | Atom _ => None
  end.

(** A location record with the four identity fields. *)
Definition has_fields (v : value) : Prop :=
  Forall (fun k => is_Some (field v k)) attributes.

#[global] Instance has_fields_dec (v : value) : Decision (has_fields v).
Proof. unfold has_fields. apply _. Defined.

(** The notices [location_changed] logs for the attributes [attrs], in
    order: one per attribute on which the two records differ. *)
Definition notices (attrs : list string) (new_loc prev_loc : value)
    : list log_record :=
  flat_map
    (fun k =>
       match field new_loc k, field prev_loc k with
       | Some n, Some p =>
           if bool_decide (n ≠ p) then [LogRecord WARNING (MovedFrom k p n)]
           else []
       | _, _ => []
       end)
    attrs.

(** Does some attribute of [attrs] differ between the two records? *)
Definition differs (attrs : list string) (new_loc prev_loc : value) : bool :=
  existsb (fun k => bool_decide (field new_loc k ≠ field prev_loc k)) attrs.

(** The record the [except] clauses log for the exception [e]. *)
Definition error_record (e : exn) : log_record :=
  LogRecord ERROR (if is_ApiException e then ApiProblem e else HorriblyWrong e).

(** The event a tick that ends in state [w'] enters for the next tick, the
    scheduler's counter having been [n] before. *)
Definition next_event (w' : world) (n : nat) (a : arguments) : event :=
  Event (clock w' + LOCATION_REQUEST_PERIOD_SECONDS) 1 n a.

(** The state right after the request that starts a tick in state [w]. *)
Definition after_fetch (api : nat -> response) (w : world) : world :=
  World (clock w + elapsed (api (requests w))) (logger w) (queue w)
        (counter w) (S (requests w)).

(** The state [w] with the records [l] added to the log. *)
Definition logs (l : list log_record) (w : world) : world :=
  set_logger (logger w ++ l) w.

(** The last statement of a tick: enter the next one with baseline [v]. *)
Definition reschedule (a : arguments) (v : value) : M world unit :=
  scheduler_enter LOCATION_REQUEST_PERIOD_SECONDS 1 (with_original_location a v).

(** The state a tick started in [w] ends in, when it logs [l] and enters the
    next tick with the arguments [a]: the clock has advanced by the duration
    of the request and the new event is due one period after that. *)
Definition ticked (api : nat -> response) (w : world) (l : list log_record)
    (a : arguments) : world :=
  World (clock w + elapsed (api (requests w)))
        (logger w ++ l)
        (heappush (queue w) (next_event (after_fetch api w) (counter w) a))
        (S (counter w))
        (S (requests w)).

(** Crash isolation with the baseline untouched: whenever the [try] body
    raises [e], the tick logs [e] as its last record, returns normally and
    enters the next tick with the arguments it received. *)
Definition crash_keeps_baseline (api : nat -> response) (a : arguments)
    (w : world) : Prop :=
  ∀ e f,
    try_body api a (original_location a, w) = (inr e, f) →
    ∃ l, get_location_and_make_noise api a w
         = (inl tt, ticked api w (l ++ [error_record e]) a).

(** A returned record with a country code and nothing else. *)
Definition mcc_only : value := Dict (<["mcc" := AInt 310]> ∅).

(** A concrete location record. *)
Definition location (mcc mnc lac cellId : Z) : value :=
  Dict (<["mcc" := AInt mcc]> (<["mnc" := AInt mnc]> (<["lac" := AInt lac]>
       (<["cellId" := AInt cellId]> ∅)))).

(** ** The logging configuration *)

(** [logging.DEBUG], [logging.INFO], [logging.WARNING], [logging.ERROR] *)
Definition levelno (l : level) : Z :=
  match l with
  | DEBUG => 10
  | INFO => 20
  | WARNING => 30
  | ERROR => 40
  end.

(** A [logging.StreamHandler] with its level and the format strings and time
    converter of its formatter. *)
Record stream_handler : Type := StreamHandler {
  handler_level : Z;
  fmt : string;
  datefmt : string;
  converter : string
}.

(** A logger of the [logging] registry: its level ([0] is [NOTSET]) and its
    handlers, in the order they were added. *)
Record logger_object : Type := Logger {
  logger_level : Z;
  handlers : list stream_handler
}.

(** What [logging.getLogger('aerframe_budget_geofence')] is before anything
    configured it. *)
Definition unconfigured : logger_object := Logger 0 [].

(** [configure_logging(level)], on the state [lg] of the logger named
    [aerframe_budget_geofence], which [logging.getLogger] returns at every
    call. *)
Definition configure_logging (level : Z) (lg : logger_object) : logger_object :=
  let date_format_string := "%Y-%m-%dT%H:%M:%S%z" in
  let ch :=
    StreamHandler (levelno INFO) "%(asctime)s %(levelname)s: %(message)s"
      date_format_string "time.gmtime" in
  Logger level (handlers lg ++ [ch]).

(** [Logger.getEffectiveLevel()] for a child of the root logger. *)
Definition getEffectiveLevel (root lg : logger_object) : Z :=
  if logger_level lg =? 0 then logger_level root else logger_level lg.

(** How many lines one logger call writes: none when the logger is not
    enabled for the record's level; otherwise one per handler of the logger
    and of the root whose level the record reaches, or, when there is no
    handler at all, one by [logging.lastResort] for a warning or worse. *)
Definition lines_written (root lg : logger_object) (r : log_record) : nat :=
  let n := levelno (severity r) in
  if n <? getEffectiveLevel root lg then O
  else
    match handlers lg ++ handlers root with
    | [] => if levelno WARNING <=? n then 1%nat else O
    | hs => length (filter (fun h => handler_level h <= n) hs)
    end.

(** What the logger calls [calls] put on the streams, oldest first. *)
Definition written (root lg : logger_object) (calls : list log_record)
    : list log_record :=
  flat_map (fun r => replicate (lines_written root lg r) r) calls.

(** ** More vocabulary *)

(** A notice with its old and new values exchanged. *)
Definition mirror (r : log_record) : log_record :=
  match msg r with
  | MovedFrom k old new => LogRecord (severity r) (MovedFrom k new old)
  | _ => r
  end.

(** Does [is_location_present] return true on [v]? *)
Definition present (v : value) : bool :=
  match fst (is_location_present v (World 0 [] [] 0 0)) with
  | inl true => true
  | _ => false
  end.

(** The first present location among the answers to the requests
    [r], ..., [r + n - 1], or [None] when there is none. *)
Fixpoint first_present (api : nat -> response) (r n : nat) : value :=
  match n with
  | O => None_
  | S n' =>
      match outcome (api r) with
      | inl v => if present v then v else first_present api (S r) n'
      | inr _ => first_present api (S r) n'
      end
  end.

(** The time the requests [r], ..., [r + n - 1] take together. *)
Fixpoint elapsed_sum (api : nat -> response) (r n : nat) : Z :=
  match n with
  | O => 0
  | S n' => elapsed (api r) + elapsed_sum api (S r) n'
  end.

(** * Properties *)

(** ** Sequencing *)

Lemma bind_inl {S A B} (m : M S A) (k : A -> M S B) (s s' : S) (a : A) :
  m s = (inl a, s') → bind m k s = k a s'.
Proof. unfold bind. by intros ->. Qed.

Lemma bind_inr {S A B} (m : M S A) (k : A -> M S B) (s s' : S) (e : exn) :
  m s = (inr e, s') → bind m k s = (inr e, s').
Proof. unfold bind. by intros ->. Qed.

(** ** Subscripts *)

Lemma subscript_Some {S} (v : value) (k : string) (a : atom) (s : S) :
  field v k = Some a → subscript v k s = (inl a, s).
Proof.
  destruct v as [x|d]; simpl; [discriminate|].
  intros ->. reflexivity.
Qed.

Lemma bind_subscript_Some {S B} (v : value) (k : string) (a : atom)
    (f : atom -> M S B) (s : S) :
  field v k = Some a → bind (subscript v k) f s = f a s.
Proof. intros H. by apply bind_inl, subscript_Some. Qed.

Lemma bind_subscript_None {S B} (v : value) (k : string) :
  field v k = None →
  ∃ e, ∀ (f : atom -> M S B) (s : S), bind (subscript v k) f s = (inr e, s).
Proof.
  destruct v as [[| |]|d]; simpl; intros H; try (eexists; reflexivity).
  unfold bind. rewrite H. eexists; reflexivity.
Qed.

Lemma bind_logger_warn {B} (m : message) (f : unit -> M world B) (w : world) :
  bind (logger_warn m) f w
  = f tt (set_logger (logger w ++ [LogRecord WARNING m]) w).
Proof. reflexivity. Qed.

Lemma set_logger_nil (w : world) : set_logger (logger w ++ []) w = w.
Proof. rewrite app_nil_r. by destruct w. Qed.

Lemma has_fields_elem (v : value) :
  has_fields v ↔ ∀ k, k ∈ attributes → is_Some (field v k).
Proof. apply Forall_forall. Qed.

(** ** The loop of the comparator *)

(** On attributes both records have, the loop returns [result] or-ed with
    [differs] and logs exactly the [notices]. *)
Lemma location_changed_loop_records (attrs : list string)
    (new_loc prev_loc : value) :
  (∀ k, k ∈ attrs → is_Some (field new_loc k)) →
  (∀ k, k ∈ attrs → is_Some (field prev_loc k)) →
  ∀ (result : bool) (w : world),
    location_changed_loop attrs new_loc prev_loc result w =
    (inl (result || differs attrs new_loc prev_loc),
     set_logger (logger w ++ notices attrs new_loc prev_loc) w).
Proof.
  induction attrs as [|k rest IH]; intros Hn Hp result w.
  - simpl. by rewrite orb_false_r, set_logger_nil.
  - destruct (Hn k) as [n En]; [left|].
    destruct (Hp k) as [p Ep]; [left|].
    assert (Hn' : ∀ k', k' ∈ rest → is_Some (field new_loc k'))
      by (intros; apply Hn; by right).
    assert (Hp' : ∀ k', k' ∈ rest → is_Some (field prev_loc k'))
      by (intros; apply Hp; by right).
    cbn [location_changed_loop].
    rewrite (bind_subscript_Some _ _ _ _ _ En), (bind_subscript_Some _ _ _ _ _ Ep).
    unfold differs, notices. cbn [existsb flat_map]. rewrite En, Ep.
    fold (differs rest new_loc prev_loc). fold (notices rest new_loc prev_loc).
    destruct (decide (n = p)) as [->|Hne].
    + rewrite (bool_decide_eq_false_2 (p ≠ p)) by (intros H; by apply H).
      rewrite (bool_decide_eq_false_2 (Some p ≠ Some p)) by (intros H; by apply H).
      by rewrite IH.
    + rewrite (bool_decide_eq_true_2 (n ≠ p)) by assumption.
      rewrite (bool_decide_eq_true_2 (Some n ≠ Some p)) by congruence.
      rewrite (bind_subscript_Some _ _ _ _ _ Ep), (bind_subscript_Some _ _ _ _ _ En).
      rewrite bind_logger_warn, IH by assumption. simpl.
      by rewrite orb_true_r, <- app_assoc.
Qed.

(** Whatever the arguments, the loop only adds warnings to the log and
    touches nothing else of the state. *)
Lemma location_changed_loop_frame (attrs : list string)
    (new_loc prev_loc : value) :
  ∀ (result : bool) (w : world),
  ∃ r l, location_changed_loop attrs new_loc prev_loc result w =
           (r, set_logger (logger w ++ l) w)
         ∧ Forall (fun x => ∃ k p n, x = LogRecord WARNING (MovedFrom k p n)) l.
Proof.
  induction attrs as [|k rest IH]; intros result w.
  - exists (inl result), []. simpl. by rewrite set_logger_nil.
  - cbn [location_changed_loop].
    destruct (field new_loc k) as [n|] eqn:En.
    2:{ destruct (bind_subscript_None (S:=world) (B:=bool) new_loc k En)
          as [e He].
        rewrite He. exists (inr e), []. by rewrite set_logger_nil. }
    rewrite (bind_subscript_Some _ _ _ _ _ En).
    destruct (field prev_loc k) as [p|] eqn:Ep.
    2:{ destruct (bind_subscript_None (S:=world) (B:=bool) prev_loc k Ep)
          as [e He].
        rewrite He. exists (inr e), []. by rewrite set_logger_nil. }
    rewrite (bind_subscript_Some _ _ _ _ _ Ep).
    case_bool_decide.
    + rewrite (bind_subscript_Some _ _ _ _ _ Ep), (bind_subscript_Some _ _ _ _ _ En).
      rewrite bind_logger_warn.
      destruct (IH true (set_logger (logger w ++ [LogRecord WARNING (MovedFrom k p n)]) w))
        as (r & l & -> & Hl).
      exists r, (LogRecord WARNING (MovedFrom k p n) :: l). split.
      * simpl. by rewrite <- app_assoc.
      * constructor; [by eexists _, _, _ | done].
    + apply IH.
Qed.

(** A missing field makes the loop raise, wherever in the tuple it is. *)
Lemma location_changed_loop_raises (attrs : list string)
    (new_loc prev_loc : value) (k : string) :
  k ∈ attrs →
  field new_loc k = None ∨ field prev_loc k = None →
  ∀ (result : bool) (w : world),
  ∃ e w', location_changed_loop attrs new_loc prev_loc result w = (inr e, w').
Proof.
  induction attrs as [|k' rest IH]; intros Hk Hmiss result w.
  - by apply elem_of_nil in Hk.
  - cbn [location_changed_loop].
    destruct (field new_loc k') as [n|] eqn:En.
    2:{ destruct (bind_subscript_None (S:=world) (B:=bool) new_loc k' En)
          as [e He].
        rewrite He. by eexists _, _. }
    rewrite (bind_subscript_Some _ _ _ _ _ En).
    destruct (field prev_loc k') as [p|] eqn:Ep.
    2:{ destruct (bind_subscript_None (S:=world) (B:=bool) prev_loc k' Ep)
          as [e He].
        rewrite He. by eexists _, _. }
    rewrite (bind_subscript_Some _ _ _ _ _ Ep).
    assert (Hrest : k ∈ rest).
    { apply elem_of_cons in Hk as [->|Hk]; [|done].
      destruct Hmiss; congruence. }
    case_bool_decide.
    + rewrite (bind_subscript_Some _ _ _ _ _ Ep), (bind_subscript_Some _ _ _ _ _ En).
      rewrite bind_logger_warn. by apply IH.
    + by apply IH.
Qed.

(** Comparing a value with itself logs nothing: the loop returns [result]
    or raises, in the state it started from. *)
Lemma location_changed_loop_same (attrs : list string) (v : value) :
  ∀ (result : bool) (w : world),
    location_changed_loop attrs v v result w = (inl result, w)
    ∨ ∃ e, location_changed_loop attrs v v result w = (inr e, w).
Proof.
  induction attrs as [|k rest IH]; intros result w.
  - by left.
  - cbn [location_changed_loop].
    destruct (field v k) as [n|] eqn:En.
    2:{ destruct (bind_subscript_None (S:=world) (B:=bool) v k En) as [e He].
        rewrite He. right. by exists e. }
    rewrite !(bind_subscript_Some _ _ _ _ _ En).
    rewrite (bool_decide_eq_false_2 (n ≠ n)) by (intros H; by apply H).
    apply IH.
Qed.

Lemma differs_true (attrs : list string) (new_loc prev_loc : value) :
  differs attrs new_loc prev_loc = true
  ↔ ∃ k, k ∈ attrs ∧ field new_loc k ≠ field prev_loc k.
Proof.
  unfold differs. rewrite existsb_exists. split.
  - intros (k & Hk & Hd). exists k. split; [by apply list_elem_of_In|].
    by apply bool_decide_eq_true in Hd.
  - intros (k & Hk & Hd). exists k. split; [by apply list_elem_of_In|].
    by apply bool_decide_eq_true.
Qed.

(** ** The comparator and the presence test *)

Lemma has_fields_not_None (v : value) : has_fields v → is_None v = false.
Proof.
  intros H. destruct (proj1 (has_fields_elem v) H "mcc") as [a Ha]; [left|].
  by destruct v.
Qed.

(** C1: for location records [new_loc] and [prev_loc] that both have the four
    fields, [prev_loc] not being [None], [location_changed] returns true if
    and only if one of [mcc], [mnc], [lac], [cellId] differs between them; in
    particular it returns true when exactly one of them differs.  It logs one
    notice per differing field. *)
Theorem location_changed_iff_some_field_differs
    (new_loc prev_loc : value) (w : world) :
  has_fields new_loc →
  has_fields prev_loc →
  prev_loc ≠ None_ →
  ∃ b : bool,
    location_changed new_loc prev_loc w
    = (inl b, set_logger (logger w ++ notices attributes new_loc prev_loc) w)
    ∧ (b = true ↔ ∃ k, k ∈ attributes ∧ field new_loc k ≠ field prev_loc k)
    ∧ (∀ k, k ∈ attributes →
         field new_loc k ≠ field prev_loc k →
         (∀ k', k' ∈ attributes → k' ≠ k → field new_loc k' = field prev_loc k') →
         b = true).
Proof.
  intros Hn Hp _. exists (differs attributes new_loc prev_loc).
  unfold location_changed. rewrite (has_fields_not_None _ Hp).
  rewrite (location_changed_loop_records _ _ _
             (proj1 (has_fields_elem _) Hn) (proj1 (has_fields_elem _) Hp)).
  simpl orb.
  split; [reflexivity|]. split; [apply differs_true|].
  intros k Hk Hd _. apply differs_true. by exists k.
Qed.

Lemma location_changed_iff_some_field_differs_witness :
  ∃ b : bool,
    location_changed (location 310 410 1 7) (location 310 410 1 8)
      (World 0 [] [] 0 0)
    = (inl b,
       set_logger
         (logger (World 0 [] [] 0 0)
          ++ notices attributes (location 310 410 1 7) (location 310 410 1 8))
         (World 0 [] [] 0 0))
    ∧ (b = true
       ↔ ∃ k, k ∈ attributes
              ∧ field (location 310 410 1 7) k ≠ field (location 310 410 1 8) k)
    ∧ (∀ k, k ∈ attributes →
         field (location 310 410 1 7) k ≠ field (location 310 410 1 8) k →
         (∀ k', k' ∈ attributes → k' ≠ k →
            field (location 310 410 1 7) k' = field (location 310 410 1 8) k') →
         b = true).
Proof.
  apply (location_changed_iff_some_field_differs
           (location 310 410 1 7) (location 310 410 1 8) (World 0 [] [] 0 0)).
  - apply (@bool_decide_unpack _ (has_fields_dec _)). vm_compute. exact I.
  - apply (@bool_decide_unpack _ (has_fields_dec _)). vm_compute. exact I.
  - discriminate.
Defined.

(** C4: on a record with an [mcc] field, [is_location_present] returns false
    if and only if that field equals zero, and true for every other value; it
    changes nothing. *)
Theorem is_location_present_false_iff_mcc_zero
    (loc : value) (mcc : atom) (w : world) :
  field loc "mcc" = Some mcc →
  ∃ b : bool,
    is_location_present loc w = (inl b, w)
    ∧ (b = false ↔ mcc = AInt 0)
    ∧ (b = true ↔ mcc ≠ AInt 0).
Proof.
  intros H. unfold is_location_present.
  rewrite (bind_subscript_Some _ _ _ _ _ H).
  case_bool_decide as Hz.
  - exists false. split; [reflexivity|]. split; split; done.
  - exists true. split; [reflexivity|]. split; split; done.
Qed.

Lemma is_location_present_false_iff_mcc_zero_witness :
  ∃ b : bool,
    is_location_present (location 0 0 0 0) (World 0 [] [] 0 0)
    = (inl b, World 0 [] [] 0 0)
    ∧ (b = false ↔ AInt 0 = AInt 0)
    ∧ (b = true ↔ AInt 0 ≠ AInt 0).
Proof.
  apply (is_location_present_false_iff_mcc_zero
           (location 0 0 0 0) (AInt 0) (World 0 [] [] 0 0)).
  reflexivity.
Defined.

(** C5: whatever [new_loc] is, a dict or not, with the fields or without,
    [location_changed new_loc None] returns false; no field is read (nothing
    can raise) and the log, like the rest of the state, is as before. *)
Theorem location_changed_prev_None (new_loc : value) (w : world) :
  location_changed new_loc None_ w = (inl false, w).
Proof. reflexivity. Qed.

(** C6: for every location record [loc] with the four fields, present or
    not, [location_changed loc loc] returns false, and logs nothing. *)
Theorem location_changed_reflexive (loc : value) (w : world) :
  has_fields loc →
  location_changed loc loc w = (inl false, w).
Proof.
  intros H. unfold location_changed. rewrite (has_fields_not_None _ H).
  destruct (location_changed_loop_same attributes loc false w) as [E|[e E]];
    [exact E|].
  rewrite (location_changed_loop_records _ _ _
             (proj1 (has_fields_elem _) H) (proj1 (has_fields_elem _) H)) in E.
  discriminate.
Qed.

Lemma location_changed_reflexive_witness :
  location_changed (location 310 410 1 7) (location 310 410 1 7)
    (World 0 [] [] 0 0)
  = (inl false, World 0 [] [] 0 0).
Proof.
  apply (location_changed_reflexive (location 310 410 1 7) (World 0 [] [] 0 0)).
  apply (@bool_decide_unpack _ (has_fields_dec _)). vm_compute. exact I.
Defined.

(** C10: when [prev_loc] is not [None], [location_changed] subscripts both
    arguments with each of the four attributes, so it raises, and returns no
    boolean, as soon as [new_loc] is [None] or one of the arguments lacks one
    of the four fields. *)
Theorem location_changed_raises_on_missing_field
    (new_loc prev_loc : value) (w : world) :
  prev_loc ≠ None_ →
  new_loc = None_
  ∨ (∃ k, k ∈ attributes ∧ (field new_loc k = None ∨ field prev_loc k = None)) →
  ∃ e w', location_changed new_loc prev_loc w = (inr e, w').
Proof.
  intros Hp Hmiss. unfold location_changed.
  assert (is_None prev_loc = false) as -> by (by destruct prev_loc as [[| |]|]).
  destruct Hmiss as [->|(k & Hk & Hmiss)].
  - apply (location_changed_loop_raises attributes _ _ "mcc"); [left|by left].
  - by apply (location_changed_loop_raises attributes _ _ k).
Qed.

Lemma location_changed_raises_on_missing_field_witness :
  (∃ e w', location_changed None_ (location 310 410 1 7) (World 0 [] [] 0 0)
           = (inr e, w'))
  ∧ (∃ e w', location_changed (location 310 410 1 7)
               (Dict (<["mcc" := AInt 310]> ∅)) (World 0 [] [] 0 0)
             = (inr e, w')).
Proof.
  split.
  - apply (location_changed_raises_on_missing_field
             None_ (location 310 410 1 7) (World 0 [] [] 0 0)).
    + discriminate.
    + left. reflexivity.
  - apply (location_changed_raises_on_missing_field
             (location 310 410 1 7) (Dict (<["mcc" := AInt 310]> ∅))
             (World 0 [] [] 0 0)).
    + discriminate.
    + right. exists "lac". split.
      * unfold attributes. do 2 right. left.
      * right. reflexivity.
Defined.

(** ** One tick *)

(** The presence test does not touch the state, and its result does not
    depend on it. *)
Lemma is_location_present_state (v : value) (w w0 : world) :
  is_location_present v w = (fst (is_location_present v w0), w).
Proof.
  unfold is_location_present.
  destruct (field v "mcc") as [m|] eqn:E.
  - rewrite !(bind_subscript_Some _ _ _ _ _ E). by case_bool_decide.
  - destruct (bind_subscript_None (S:=world) (B:=bool) v "mcc" E) as [e He].
    by rewrite !He.
Qed.

(** The [try] body, path by path. *)
Lemma try_body_paths (api : nat -> response) (a : arguments) (w : world) :
  try_body api a (original_location a, w) =
  let orig := original_location a in
  let w1 := after_fetch api w in
  match outcome (api (requests w)) with
  | inr e => (inr e, (orig, w1))
  | inl v =>
      let w2 := logs [LogRecord DEBUG (LatestLocation v)] w1 in
      match fst (is_location_present v w) with
      | inr e => (inr e, (orig, w2))
      | inl false => (inl tt, (orig, w2))
      | inl true =>
          let orig' := if is_None orig then v else orig in
          let w3 :=
            if is_None orig then logs [LogRecord INFO (OriginalLocation v)] w2
            else w2 in
          match location_changed v orig' w3 with
          | (inr e, w4) => (inr e, (orig', w4))
          | (inl true, w4) =>
              (inl tt, (orig', logs [LogRecord WARNING DeviceMoved] w4))
          | (inl false, w4) => (inl tt, (orig', w4))
          end
      end
  end.
Proof.
  cbv [try_body bind call load store aerframesdk_get_location ret
       logger_debug logger_info logger_warn log_call after_fetch logs].
  cbn [fst snd].
  destruct (outcome (api (requests w))) as [v|e]; [|reflexivity].
  cbn [logger set_logger clock queue counter requests].
  match goal with
  | |- context [is_location_present v ?x] =>
      rewrite (is_location_present_state v x w)
  end.
  destruct (fst (is_location_present v w)) as [[|]|e]; try reflexivity.
  cbn [fst snd].
  destruct (is_None (original_location a));
    cbn [fst snd logger set_logger clock queue counter requests];
    match goal with
    | |- context [location_changed v ?o ?x] =>
        by destruct (location_changed v o x) as [[[|]|e] w4]
    end.
Qed.

(** The tick around its [try] body: an exception is logged by one of the
    [except] clauses, and in either case the next tick is entered with the
    value the local [original_location] has by then. *)
Lemma get_location_and_make_noise_try (api : nat -> response)
    (a : arguments) (w : world) :
  get_location_and_make_noise api a w =
  match try_body api a (original_location a, w) with
  | (inl _, f) => reschedule a (fst f) (snd f)
  | (inr e, f) => reschedule a (fst f) (logs [error_record e] (snd f))
  end.
Proof.
  cbv [get_location_and_make_noise try_except bind call load handler
       logger_error log_call reschedule logs error_record].
  destruct (try_body api a (original_location a, w)) as [[[]|e] [v w']];
    [reflexivity|].
  by destruct (is_ApiException e).
Qed.

Lemma logs_logs (l1 l2 : list log_record) (w : world) :
  logs l2 (logs l1 w) = logs (l1 ++ l2) w.
Proof. unfold logs, set_logger. simpl. by rewrite app_assoc. Qed.

Lemma logs_nil (w : world) : logs [] w = w.
Proof. apply set_logger_nil. Qed.

Lemma reschedule_after_fetch (api : nat -> response) (a : arguments)
    (v : value) (l : list log_record) (w : world) :
  reschedule a v (logs l (after_fetch api w))
  = (inl tt, ticked api w l (with_original_location a v)).
Proof. reflexivity. Qed.

(** The comparator only adds notices to the log. *)
Lemma location_changed_frame (new_loc prev_loc : value) (w : world) :
  ∃ r l, location_changed new_loc prev_loc w = (r, logs l w)
         ∧ Forall (fun x => ∃ k p n, x = LogRecord WARNING (MovedFrom k p n)) l.
Proof.
  unfold location_changed. destruct (is_None prev_loc).
  - exists (inl false), []. by rewrite logs_nil.
  - apply location_changed_loop_frame.
Qed.

(** Comparing a value with itself returns false or raises, and logs
    nothing. *)
Lemma location_changed_same (v : value) (w : world) :
  location_changed v v w = (inl false, w)
  ∨ ∃ e, location_changed v v w = (inr e, w).
Proof.
  unfold location_changed. destruct (is_None v); [by left|].
  apply location_changed_loop_same.
Qed.

(** A value that passes the presence test is a dict, hence not [None]. *)
Lemma present_not_None (v : value) (w : world) :
  fst (is_location_present v w) = inl true → is_None v = false.
Proof. by destruct v as [[| |]|d]. Qed.

Lemma is_None_true (v : value) : is_None v = true → v = None_.
Proof. by destruct v as [[| |]|d]. Qed.

Lemma is_None_false (v : value) : is_None v = false ↔ v ≠ None_.
Proof. destruct v as [[| |]|d]; split; done. Qed.

Lemma with_original_location_same (a : arguments) :
  with_original_location a (original_location a) = a.
Proof. by destruct a. Qed.

(** Rewrites a tick to the state its path ends in. *)
Ltac tick_path :=
  rewrite get_location_and_make_noise_try, try_body_paths; cbn zeta.

(** Brings the final [reschedule] of a path into the form [ticked]. *)
Ltac tick_end :=
  cbn [fst snd]; rewrite ?logs_logs; rewrite reschedule_after_fetch.

(** A tick never raises; it ends in a state of the form [ticked], and the
    baseline it passes on is the one it received unless that was [None] and
    the request returned a present location. *)
Lemma get_location_and_make_noise_summary (api : nat -> response)
    (a : arguments) (w : world) :
  ∃ l next,
    get_location_and_make_noise api a w
    = (inl tt, ticked api w l (with_original_location a next))
    ∧ (original_location a ≠ None_ → next = original_location a)
    ∧ (next ≠ original_location a →
         original_location a = None_
         ∧ next ≠ None_
         ∧ outcome (api (requests w)) = inl next
         ∧ fst (is_location_present next w) = inl true).
Proof.
  tick_path.
  destruct (outcome (api (requests w))) as [v|e] eqn:Eo.
  2:{ tick_end. by eexists _, _. }
  destruct (fst (is_location_present v w)) as [[|]|e] eqn:Ep.
  2:{ tick_end. by eexists _, _. }
  2:{ tick_end. by eexists _, _. }
  destruct (is_None (original_location a)) eqn:En.
  - destruct (location_changed_frame v v
      (logs [LogRecord INFO (OriginalLocation v)]
         (logs [LogRecord DEBUG (LatestLocation v)] (after_fetch api w))))
      as (r & lc & -> & _).
    assert (Hv : v ≠ None_) by (by apply is_None_false, (present_not_None v w)).
    apply is_None_true in En.
    destruct r as [[|]|e]; tick_end; eexists _, v;
      (split; [reflexivity|]); (split; [congruence|done]).
  - destruct (location_changed_frame v (original_location a)
      (logs [LogRecord DEBUG (LatestLocation v)] (after_fetch api w)))
      as (r & lc & -> & _).
    destruct r as [[|]|e]; tick_end; by eexists _, _.
Qed.

(** C2: a tick that receives a baseline other than [None] enters the next
    tick with that same baseline, whatever the request returns or raises;
    the baseline passed on differs from the one received only when [None]
    was received and the request returned a present location, which is then
    the baseline, and is not [None]. *)
Theorem baseline_assigned_once (api : nat -> response) (a : arguments)
    (w : world) :
  ∃ l next,
    get_location_and_make_noise api a w
    = (inl tt, ticked api w l (with_original_location a next))
    ∧ (original_location a ≠ None_ → next = original_location a)
    ∧ (next ≠ original_location a →
         original_location a = None_
         ∧ next ≠ None_
         ∧ outcome (api (requests w)) = inl next
         ∧ fst (is_location_present next w) = inl true).
Proof. apply get_location_and_make_noise_summary. Qed.

(** A baseline [A] is kept when the request returns a record [B] with
    another cell. *)
Lemma baseline_assigned_once_witness :
  ∃ l,
    get_location_and_make_noise
      (fun _ => Response 2 (inl (location 310 410 1 8)))
      (Args "acct" "key" "imsi" "IMSI" (location 310 410 1 7))
      (World 0 [] [] 0 0)
    = (inl tt,
       ticked (fun _ => Response 2 (inl (location 310 410 1 8)))
         (World 0 [] [] 0 0) l
         (Args "acct" "key" "imsi" "IMSI" (location 310 410 1 7))).
Proof.
  destruct (baseline_assigned_once
              (fun _ => Response 2 (inl (location 310 410 1 8)))
              (Args "acct" "key" "imsi" "IMSI" (location 310 410 1 7))
              (World 0 [] [] 0 0)) as (l & next & E & Hkeep & _).
  exists l. rewrite E, Hkeep; [reflexivity | discriminate].
Defined.

(** What the [try] body has done when it raises: it has only added records
    to the log of the state the request left, and its local is the incoming
    baseline, unless that was [None] and the request returned a present
    location, which it then holds. *)
Lemma try_body_raises (api : nat -> response) (a : arguments) (w : world)
    (e : exn) (f : frame) :
  try_body api a (original_location a, w) = (inr e, f) →
  ∃ l, snd f = logs l (after_fetch api w)
       ∧ (fst f = original_location a
          ∨ (original_location a = None_
             ∧ outcome (api (requests w)) = inl (fst f)
             ∧ fst (is_location_present (fst f) w) = inl true))
       ∧ (∀ e', outcome (api (requests w)) = inr e' →
            fst f = original_location a ∧ e' = e ∧ l = [])
       ∧ (∀ v, original_location a = None_ →
            outcome (api (requests w)) = inl v →
            fst (is_location_present v w) = inl true →
            fst f = v)
       ∧ (∀ v, outcome (api (requests w)) = inl v →
            fst (is_location_present v w) ≠ inl true →
            fst f = original_location a).
Proof.
  rewrite try_body_paths; cbn zeta.
  destruct (outcome (api (requests w))) as [v|e0] eqn:Eo.
  2:{ intros [= <- <-]. exists []. rewrite logs_nil.
      split; [done|]. split; [by left|].
      split; [by intros e' [= <-]|]. split; by intros v. }
  destruct (fst (is_location_present v w)) as [[|]|e0] eqn:Ep.
  2:{ discriminate. }
  2:{ intros [= <- <-]. eexists. split; [reflexivity|]. split; [by left|].
      split; [done|]. split.
      - intros v' _ [= <-]. by rewrite Ep.
      - by intros v'. }
  destruct (is_None (original_location a)) eqn:En.
  - destruct (location_changed_frame v v
      (logs [LogRecord INFO (OriginalLocation v)]
         (logs [LogRecord DEBUG (LatestLocation v)] (after_fetch api w))))
      as (r & lc & -> & _).
    apply is_None_true in En.
    destruct r as [[|]|e0]; try discriminate.
    intros [= <- <-]. rewrite !logs_logs. eexists.
    split; [reflexivity|]. split; [by right|]. split; [done|]. split.
    + by intros v' _ [= <-].
    + intros v' [= <-] Hp. by destruct Hp.
  - destruct (location_changed_frame v (original_location a)
      (logs [LogRecord DEBUG (LatestLocation v)] (after_fetch api w)))
      as (r & lc & -> & _).
    destruct r as [[|]|e0]; try discriminate.
    intros [= <- <-]. rewrite !logs_logs. eexists.
    split; [reflexivity|]. split; [by left|]. split; [done|]. split.
    + intros v' Hn. rewrite Hn in En. discriminate.
    + by intros v'.
Qed.

(** C3, as amended: if the request or any later step of the [try] body
    raises [e], the tick logs [e] at error severity as its last record,
    returns normally and enters the next tick one period later.  The baseline
    passed on is the incoming one whenever the request itself raised, or the
    incoming baseline is not [None], or the answer did not pass the presence
    test; when the incoming baseline is [None] and the request returned a
    present location, so that the error came after the adoption, the
    baseline passed on is that location. *)
Theorem tick_error_is_logged_and_isolated (api : nat -> response)
    (a : arguments) (w : world) (e : exn) (f : frame) :
  try_body api a (original_location a, w) = (inr e, f) →
  ∃ l,
    get_location_and_make_noise api a w
    = (inl tt,
       ticked api w (l ++ [error_record e]) (with_original_location a (fst f)))
    ∧ severity (error_record e) = ERROR
    ∧ (∀ e', outcome (api (requests w)) = inr e' → fst f = original_location a)
    ∧ (original_location a ≠ None_ → fst f = original_location a)
    ∧ (∀ v, outcome (api (requests w)) = inl v →
         fst (is_location_present v w) ≠ inl true →
         fst f = original_location a)
    ∧ (∀ v, original_location a = None_ →
         outcome (api (requests w)) = inl v →
         fst (is_location_present v w) = inl true →
         fst f = v)
    ∧ (fst f = original_location a
       ∨ (original_location a = None_
          ∧ outcome (api (requests w)) = inl (fst f)
          ∧ fst (is_location_present (fst f) w) = inl true)).
Proof.
  intros H.
  destruct (try_body_raises api a w e f H)
    as (l & Hl & Hb & Hr & Hadopt & Habsent).
  exists l. rewrite get_location_and_make_noise_try, H, Hl. tick_end.
  split; [reflexivity|]. split; [reflexivity|].
  split; [intros e' He'; by destruct (Hr e' He')|].
  split; [intros Hn; by destruct Hb as [Hb|[Hb _]]|].
  split; [exact Habsent|]. split; [exact Hadopt|exact Hb].
Qed.

(** A request that raises with a baseline set, and an incomplete answer
    adopted before the comparison raises. *)
Lemma tick_error_is_logged_and_isolated_witness :
  (∃ l,
     get_location_and_make_noise
       (fun _ => Response 5 (inr (ApiException "503")))
       (Args "acct" "key" "imsi" "IMSI" (location 310 410 1 7))
       (World 0 [] [] 0 0)
     = (inl tt,
        ticked (fun _ => Response 5 (inr (ApiException "503")))
          (World 0 [] [] 0 0) (l ++ [error_record (ApiException "503")])
          (Args "acct" "key" "imsi" "IMSI" (location 310 410 1 7))))
  ∧ (∃ l,
       get_location_and_make_noise (fun _ => Response 2 (inl mcc_only))
         (Args "acct" "key" "imsi" "IMSI" None_) (World 0 [] [] 0 0)
       = (inl tt,
          ticked (fun _ => Response 2 (inl mcc_only)) (World 0 [] [] 0 0)
            (l ++ [error_record (KeyError "mnc")])
            (Args "acct" "key" "imsi" "IMSI" mcc_only))).
Proof.
  split.
  - destruct (tick_error_is_logged_and_isolated
                (fun _ => Response 5 (inr (ApiException "503")))
                (Args "acct" "key" "imsi" "IMSI" (location 310 410 1 7))
                (World 0 [] [] 0 0)
                (ApiException "503")
                (location 310 410 1 7, World 5 [] [] 0 1))
      as (l & E & _); [reflexivity|].
    exists l. exact E.
  - destruct (tick_error_is_logged_and_isolated
                (fun _ => Response 2 (inl mcc_only))
                (Args "acct" "key" "imsi" "IMSI" None_)
                (World 0 [] [] 0 0)
                (KeyError "mnc")
                (mcc_only,
                 World 2
                   [LogRecord DEBUG (LatestLocation mcc_only);
                    LogRecord INFO (OriginalLocation mcc_only)]
                   [] 0 1))
      as (l & E & _); [reflexivity|].
    exists l. exact E.
Defined.

(** C3, as stated, fails: with no baseline yet, a returned record that has a
    non-zero [mcc] but no [mnc] is adopted before the comparison raises
    [KeyError]; the handler logs the error and the tick enters the next one
    with the adopted record, not with the [None] it received. *)
Lemma crash_keeps_baseline_counterexample :
  try_body (fun _ => Response 2 (inl mcc_only))
    (Args "acct" "key" "imsi" "IMSI" None_) (None_, World 0 [] [] 0 0)
  = (inr (KeyError "mnc"),
     (mcc_only,
      World 2
        [LogRecord DEBUG (LatestLocation mcc_only);
         LogRecord INFO (OriginalLocation mcc_only)]
        [] 0 1))
  ∧ get_location_and_make_noise (fun _ => Response 2 (inl mcc_only))
      (Args "acct" "key" "imsi" "IMSI" None_) (World 0 [] [] 0 0)
    = (inl tt,
       World 2
         [LogRecord DEBUG (LatestLocation mcc_only);
          LogRecord INFO (OriginalLocation mcc_only);
          LogRecord ERROR (HorriblyWrong (KeyError "mnc"))]
         [Event 3602 1 0 (Args "acct" "key" "imsi" "IMSI" mcc_only)]
         1 1)
  ∧ ¬ crash_keeps_baseline (fun _ => Response 2 (inl mcc_only))
        (Args "acct" "key" "imsi" "IMSI" None_) (World 0 [] [] 0 0).
Proof.
  split; [reflexivity|]. split; [reflexivity|].
  intros H.
  destruct (H (KeyError "mnc")
              (mcc_only,
               World 2
                 [LogRecord DEBUG (LatestLocation mcc_only);
                  LogRecord INFO (OriginalLocation mcc_only)]
                 [] 0 1))
    as [l Hl]; [reflexivity|].
  apply (f_equal (fun r => map (fun x => original_location (argument x))
                             (queue (snd r)))) in Hl.
  vm_compute in Hl. discriminate.
Qed.

(** C7: when the request returns a location [loc] for which
    [is_location_present] is false, the tick logs the debug record and nothing
    else (so no notice and no "moved" warning) and enters the next tick with
    the arguments it received: an unset baseline stays unset, a set one stays
    as it was. *)
Theorem absent_location_is_inert (api : nat -> response) (a : arguments)
    (w : world) (loc : value) :
  outcome (api (requests w)) = inl loc →
  fst (is_location_present loc w) = inl false →
  get_location_and_make_noise api a w
  = (inl tt, ticked api w [LogRecord DEBUG (LatestLocation loc)] a).
Proof.
  intros Ho Hp. tick_path. rewrite Ho, Hp. tick_end.
  by rewrite with_original_location_same.
Qed.

Lemma absent_location_is_inert_witness :
  get_location_and_make_noise
    (fun _ => Response 2 (inl (location 0 0 0 0)))
    (Args "acct" "key" "imsi" "IMSI" None_)
    (World 0 [] [] 0 0)
  = (inl tt,
     ticked (fun _ => Response 2 (inl (location 0 0 0 0)))
       (World 0 [] [] 0 0)
       [LogRecord DEBUG (LatestLocation (location 0 0 0 0))]
       (Args "acct" "key" "imsi" "IMSI" None_)).
Proof.
  apply (absent_location_is_inert
           (fun _ => Response 2 (inl (location 0 0 0 0)))
           (Args "acct" "key" "imsi" "IMSI" None_)
           (World 0 [] [] 0 0) (location 0 0 0 0)).
  - reflexivity.
  - reflexivity.
Defined.

(** C8: when the incoming baseline is [None] and the request returns a
    present location [loc], the tick logs [loc] as the original location at
    info severity, logs no warning, and enters the next tick with [loc] as
    the baseline.  (After the info record it logs nothing, or one error
    record when [loc] lacks a field.) *)
Theorem first_reading_is_adopted (api : nat -> response) (a : arguments)
    (w : world) (loc : value) :
  original_location a = None_ →
  outcome (api (requests w)) = inl loc →
  fst (is_location_present loc w) = inl true →
  ∃ l,
    get_location_and_make_noise api a w
    = (inl tt,
       ticked api w
         ([LogRecord DEBUG (LatestLocation loc);
           LogRecord INFO (OriginalLocation loc)] ++ l)
         (with_original_location a loc))
    ∧ (l = [] ∨ ∃ e, l = [error_record e])
    ∧ Forall (fun x => severity x ≠ WARNING)
        ([LogRecord DEBUG (LatestLocation loc);
          LogRecord INFO (OriginalLocation loc)] ++ l).
Proof.
  intros Hn Ho Hp. tick_path. rewrite Ho, Hp, Hn. cbn [is_None].
  destruct (location_changed_same loc
      (logs [LogRecord INFO (OriginalLocation loc)]
         (logs [LogRecord DEBUG (LatestLocation loc)] (after_fetch api w))))
    as [->|[e ->]]; tick_end.
  - exists []. split; [reflexivity|]. split; [by left|].
    repeat constructor; discriminate.
  - exists [error_record e]. split; [reflexivity|].
    split; [right; by exists e|]. repeat constructor; discriminate.
Qed.

Lemma first_reading_is_adopted_witness :
  ∃ l,
    get_location_and_make_noise
      (fun _ => Response 2 (inl (location 310 410 1 7)))
      (Args "acct" "key" "imsi" "IMSI" None_)
      (World 0 [] [] 0 0)
    = (inl tt,
       ticked (fun _ => Response 2 (inl (location 310 410 1 7)))
         (World 0 [] [] 0 0)
         ([LogRecord DEBUG (LatestLocation (location 310 410 1 7));
           LogRecord INFO (OriginalLocation (location 310 410 1 7))] ++ l)
         (Args "acct" "key" "imsi" "IMSI" (location 310 410 1 7)))
    ∧ (l = [] ∨ ∃ e, l = [error_record e])
    ∧ Forall (fun x => severity x ≠ WARNING)
        ([LogRecord DEBUG (LatestLocation (location 310 410 1 7));
          LogRecord INFO (OriginalLocation (location 310 410 1 7))] ++ l).
Proof.
  apply (first_reading_is_adopted
           (fun _ => Response 2 (inl (location 310 410 1 7)))
           (Args "acct" "key" "imsi" "IMSI" None_)
           (World 0 [] [] 0 0) (location 310 410 1 7)).
  - reflexivity.
  - reflexivity.
  - reflexivity.
Defined.

(** Baseline [A], and the request returns [B] that differs in the cell only:
    a notice names [cellId], the device is reported as moved, and [A] stays
    the baseline. *)
Example moved_to_another_cell :
  get_location_and_make_noise
    (fun _ => Response 2 (inl (location 310 410 1 8)))
    (Args "acct" "key" "imsi" "IMSI" (location 310 410 1 7))
    (World 100 [] [] 1 0)
  = (inl tt,
     World 102
       [LogRecord DEBUG (LatestLocation (location 310 410 1 8));
        LogRecord WARNING (MovedFrom "cellId" (AInt 7) (AInt 8));
        LogRecord WARNING DeviceMoved]
       [Event 3702 1 1 (Args "acct" "key" "imsi" "IMSI" (location 310 410 1 7))]
       2 1).
Proof. reflexivity. Qed.

(** Baseline [A], and the request returns [A] again: only the debug record. *)
Example still_in_the_same_cell :
  get_location_and_make_noise
    (fun _ => Response 2 (inl (location 310 410 1 7)))
    (Args "acct" "key" "imsi" "IMSI" (location 310 410 1 7))
    (World 100 [] [] 1 0)
  = (inl tt,
     World 102
       [LogRecord DEBUG (LatestLocation (location 310 410 1 7))]
       [Event 3702 1 1 (Args "acct" "key" "imsi" "IMSI" (location 310 410 1 7))]
       2 1).
Proof. reflexivity. Qed.

(** ** The loop *)

Section Loop.

Variable api : nat -> response.

Lemma iterations_add (n m : nat) (w : world) :
  iterations api (n + m) w
  = match iterations api n w with
    | Some w' => iterations api m w'
    | None => None
    end.
Proof.
  revert w. induction n as [|n IH]; intros w; [reflexivity|].
  cbn [Nat.add iterations]. by destruct (run_iteration api w).
Qed.

Lemma iterations_prefix (n m : nat) (w : world) :
  is_Some (iterations api (n + m) w) → is_Some (iterations api n w).
Proof.
  rewrite iterations_add. destruct (iterations api n w); [by eexists|].
  by intros [? ?].
Qed.

(** While the iterations go on, [run] has not returned, and is in the state
    they have reached. *)
Lemma scheduler_run_going (fuel : nat) (w w' : world) :
  iterations api fuel w = Some w' → scheduler_run api fuel w = Running w'.
Proof.
  revert w. induction fuel as [|fuel IH]; intros w; [by intros [= ->]|].
  cbn [iterations scheduler_run].
  destruct (run_iteration api w); try discriminate. apply IH.
Qed.

(** With one event pending, due [d > 0] seconds from now, the loop sleeps
    until it is due and then runs the tick, which leaves one event pending,
    due one period after the tick's end. *)
Lemma two_iterations (w : world) (d : Z) (n : nat) (a : arguments) :
  0 < d →
  queue w = [Event (clock w + d) 1 n a] →
  counter w = S n →
  ∃ w' next,
    iterations api 2 w = Some w'
    ∧ queue w'
      = [Event (clock w' + LOCATION_REQUEST_PERIOD_SECONDS) 1 (S n)
           (with_original_location a next)]
    ∧ counter w' = S (S n)
    ∧ requests w' = S (requests w)
    ∧ clock w' = clock w + d + elapsed (api (requests w)).
Proof.
  intros Hd Hq Hc. cbn [iterations]. unfold run_iteration at 1.
  rewrite Hq. cbn [time].
  assert ((clock w + d >? clock w) = true) as -> by lia.
  cbn [time_sleep snd]. unfold run_iteration.
  cbn [queue set_clock clock time argument]. rewrite Hq.
  cbn [time argument].
  assert ((clock w + d >? clock w + (clock w + d - clock w)) = false) as ->
    by lia.
  destruct (get_location_and_make_noise_summary api a
              (set_queue [] (set_clock (clock w + (clock w + d - clock w)) w)))
    as (l & next & -> & _).
  eexists _, next. split; [reflexivity|].
  cbn. rewrite Hc. repeat split; try reflexivity.
  - unfold next_event, after_fetch. cbn. do 2 f_equal. lia.
  - lia.
Qed.


End Loop.

(** C9: [begin_loop] enters the first tick one second after the start and
    runs the scheduler, which never returns: whatever the fuel, the loop is
    still going.  The loop first sleeps that second without a request, the
    first request is made when it has passed, and after every tick exactly
    one event is pending, with priority 1 and due one period of 3600 seconds
    after the end of the tick. *)
Theorem scheduling_contract (api : nat -> response)
    (acc key dev typ : string) (w : world) :
  LOCATION_REQUEST_PERIOD_SECONDS = 3600
  ∧ (∀ fuel, ∃ w', begin_loop api acc key dev typ fuel w = Running w')
  ∧ (∃ w0,
       begin_loop_enter acc key dev typ w = (inl tt, w0)
       ∧ begin_loop api acc key dev typ 0 w = Running w0
       ∧ queue w0 = [Event (clock w + 1) 1 0 (Args acc key dev typ None_)]
       ∧ clock w0 = clock w
       ∧ requests w0 = requests w)
  ∧ (∃ w1,
       begin_loop api acc key dev typ 1 w = Running w1
       ∧ clock w1 = clock w + 1
       ∧ requests w1 = requests w)
  ∧ (∃ w2,
       begin_loop api acc key dev typ 2 w = Running w2
       ∧ clock w2 = clock w + 1 + elapsed (api (requests w))
       ∧ requests w2 = S (requests w))
  ∧ (∀ n, ∃ wn b,
       begin_loop api acc key dev typ (2 * S n) w = Running wn
       ∧ requests wn = (requests w + S n)%nat
       ∧ queue wn
         = [Event (clock wn + LOCATION_REQUEST_PERIOD_SECONDS) 1 (S n)
              (Args acc key dev typ b)]).
Proof.
  set (w0 := World (clock w) (logger w)
               [Event (clock w + 1) 1 0 (Args acc key dev typ None_)] 1
               (requests w)).
  assert (Hrun : ∀ fuel, begin_loop api acc key dev typ fuel w
                         = scheduler_run api fuel w0) by reflexivity.
  assert (Hticks : ∀ n, ∃ wn b,
            iterations api (2 * S n) w0 = Some wn
            ∧ requests wn = (requests w + S n)%nat
            ∧ queue wn
              = [Event (clock wn + LOCATION_REQUEST_PERIOD_SECONDS) 1 (S n)
                   (Args acc key dev typ b)]
            ∧ counter wn = S (S n)).
  { induction n as [|n IH].
    - destruct (two_iterations api w0 1 0 (Args acc key dev typ None_))
        as (w2 & b & E & Hq & Hc & Hr & _); [lia|reflexivity|reflexivity|].
      exists w2, b. split; [exact E|]. rewrite Hr. cbn [w0 requests].
      split; [lia|]. by split.
    - destruct IH as (wn & b & E & Hr & Hq & Hc).
      destruct (two_iterations api wn LOCATION_REQUEST_PERIOD_SECONDS (S n)
                  (Args acc key dev typ b))
        as (w' & b' & E' & Hq' & Hc' & Hr' & _); [done|exact Hq|exact Hc|].
      exists w', b'.
      replace (2 * S (S n))%nat with (2 * S n + 2)%nat by lia.
      rewrite iterations_add, E, E', Hr', Hr.
      split; [reflexivity|]. split; [lia|]. by split. }
  split; [reflexivity|]. split.
  { intros fuel. rewrite Hrun.
    destruct (Hticks fuel) as (wn & b & E & _).
    destruct (iterations_prefix api fuel (S (S fuel)) w0) as [w' Ew'].
    { replace (fuel + S (S fuel))%nat with (2 * S fuel)%nat by lia.
      rewrite E. by eexists. }
    exists w'. by apply scheduler_run_going. }
  split.
  { exists w0. by repeat split. }
  split.
  { rewrite Hrun. cbn [scheduler_run]. unfold run_iteration.
    cbn [w0 queue clock time].
    assert ((clock w + 1 >? clock w) = true) as -> by lia.
    eexists. split; [reflexivity|]. cbn. split; [lia|reflexivity]. }
  split.
  { destruct (two_iterations api w0 1 0 (Args acc key dev typ None_))
      as (w2 & b & E & _ & _ & Hr & Hclk); [lia|reflexivity|reflexivity|].
    exists w2. rewrite Hrun. split; [by apply scheduler_run_going|].
    by split. }
  intros n. destruct (Hticks n) as (wn & b & E & Hr & Hq & _).
  exists wn, b. rewrite Hrun. split; [by apply scheduler_run_going|].
  by split.
Qed.

(** * Further properties *)

(** ** The comparator *)

Lemma differs_sym (attrs : list string) (a b : value) :
  differs attrs a b = differs attrs b a.
Proof.
  unfold differs. induction attrs as [|k rest IH]; [reflexivity|].
  cbn [existsb]. rewrite IH. f_equal. apply bool_decide_ext. split; congruence.
Qed.

Lemma notices_mirror (attrs : list string) (a b : value) :
  notices attrs b a = map mirror (notices attrs a b).
Proof.
  unfold notices. induction attrs as [|k rest IH]; [reflexivity|].
  cbn [flat_map]. rewrite map_app, IH. f_equal.
  destruct (field a k) as [x|], (field b k) as [y|]; try reflexivity.
  destruct (decide (x = y)) as [->|Hne].
  - by rewrite (bool_decide_eq_false_2 (y ≠ y)) by (intros H; by apply H).
  - rewrite (bool_decide_eq_true_2 (x ≠ y)) by done.
    by rewrite (bool_decide_eq_true_2 (y ≠ x)) by congruence.
Qed.

(** Exchanging the two records does not change the verdict of the
    comparator: the same fields are reported, with old and new values
    exchanged. *)
Theorem location_changed_symmetric (a b : value) (w : world) :
  has_fields a →
  has_fields b →
  ∃ r : bool,
    location_changed a b w = (inl r, logs (notices attributes a b) w)
    ∧ location_changed b a w
      = (inl r, logs (map mirror (notices attributes a b)) w).
Proof.
  intros Ha Hb. exists (differs attributes a b).
  unfold location_changed.
  rewrite (has_fields_not_None _ Ha), (has_fields_not_None _ Hb).
  rewrite !location_changed_loop_records by (by apply has_fields_elem).
  rewrite (differs_sym attributes b a), (notices_mirror attributes a b).
  split; reflexivity.
Qed.

Lemma location_changed_symmetric_witness :
  ∃ r : bool,
    location_changed (location 310 410 1 7) (location 310 260 1 8)
      (World 0 [] [] 0 0)
    = (inl r,
       logs (notices attributes (location 310 410 1 7) (location 310 260 1 8))
         (World 0 [] [] 0 0))
    ∧ location_changed (location 310 260 1 8) (location 310 410 1 7)
        (World 0 [] [] 0 0)
      = (inl r,
         logs (map mirror
                 (notices attributes (location 310 410 1 7)
                    (location 310 260 1 8)))
           (World 0 [] [] 0 0)).
Proof.
  apply (location_changed_symmetric (location 310 410 1 7)
           (location 310 260 1 8) (World 0 [] [] 0 0)).
  - apply (@bool_decide_unpack _ (has_fields_dec _)). vm_compute. exact I.
  - apply (@bool_decide_unpack _ (has_fields_dec _)). vm_compute. exact I.
Defined.

(** The loop sees its arguments only through the subscripts it takes. *)
Lemma location_changed_loop_ext (attrs : list string) (n n' p p' : value) :
  (∀ k (w : world), k ∈ attrs → subscript n k w = subscript n' k w) →
  (∀ k (w : world), k ∈ attrs → subscript p k w = subscript p' k w) →
  ∀ (result : bool) (w : world),
    location_changed_loop attrs n p result w
    = location_changed_loop attrs n' p' result w.
Proof.
  induction attrs as [|k rest IH]; intros Hn Hp result w; [reflexivity|].
  assert (IH' : ∀ result w,
            location_changed_loop rest n p result w
            = location_changed_loop rest n' p' result w).
  { apply IH; intros; [apply Hn|apply Hp]; by right. }
  cbn [location_changed_loop]. unfold bind.
  rewrite <- (Hn k w) by left.
  destruct (subscript n k w) as [[x|e] w1] eqn:En; [|reflexivity].
  assert (w1 = w) as ->.
  { destruct n as [[| |]|d]; simpl in En; try discriminate.
    destruct (d !! k); by inversion En. }
  rewrite <- (Hp k w) by left.
  destruct (subscript p k w) as [[y|e] w1] eqn:Ep; [|reflexivity].
  assert (w1 = w) as ->.
  { destruct p as [[| |]|d]; simpl in Ep; try discriminate.
    destruct (d !! k); by inversion Ep. }
  case_bool_decide; [|apply IH'].
  rewrite <- (Hp k w), Ep by left.
  rewrite <- (Hn k w), En by left.
  apply IH'.
Qed.

(** The comparator looks at nothing but the four attributes: a key that is
    none of them (a timestamp, say) can be added to either record, or changed
    in it, without any effect on the result, the log or the exception. *)
Theorem location_changed_ignores_other_keys (d : gmap string atom)
    (k : string) (x : atom) (other : value) (w : world) :
  k ∉ attributes →
  location_changed (Dict (<[k := x]> d)) other w
  = location_changed (Dict d) other w
  ∧ location_changed other (Dict (<[k := x]> d)) w
    = location_changed other (Dict d) w.
Proof.
  intros Hk.
  assert (Hsub : ∀ k' (w : world), k' ∈ attributes →
            subscript (Dict (<[k := x]> d)) k' w = subscript (Dict d) k' w).
  { intros k' w' Hk'. simpl. rewrite lookup_insert_ne; [done|].
    intros ->. by apply Hk. }
  unfold location_changed. split.
  - destruct (is_None other); [reflexivity|].
    by apply location_changed_loop_ext.
  - cbn [is_None]. by apply location_changed_loop_ext.
Qed.

Lemma location_changed_ignores_other_keys_witness :
  location_changed
    (Dict (<["locationTimestamp" := AStr "2020-01-01"]> ∅))
    (location 310 410 1 7) (World 0 [] [] 0 0)
  = location_changed (Dict ∅) (location 310 410 1 7) (World 0 [] [] 0 0)
  ∧ location_changed (location 310 410 1 7)
      (Dict (<["locationTimestamp" := AStr "2020-01-01"]> ∅))
      (World 0 [] [] 0 0)
    = location_changed (location 310 410 1 7) (Dict ∅) (World 0 [] [] 0 0).
Proof.
  apply (location_changed_ignores_other_keys ∅ "locationTimestamp"
           (AStr "2020-01-01") (location 310 410 1 7) (World 0 [] [] 0 0)).
  apply (bool_decide_unpack _). vm_compute. exact I.
Defined.

(** Over attributes that both records have, the loop only accumulates. *)
Lemma location_changed_loop_app (pre rest : list string)
    (new_loc prev_loc : value) :
  (∀ k, k ∈ pre → is_Some (field new_loc k) ∧ is_Some (field prev_loc k)) →
  ∀ (result : bool) (w : world),
    location_changed_loop (pre ++ rest) new_loc prev_loc result w
    = location_changed_loop rest new_loc prev_loc
        (result || differs pre new_loc prev_loc)
        (logs (notices pre new_loc prev_loc) w).
Proof.
  induction pre as [|k pre IH]; intros H result w.
  - cbn. by rewrite orb_false_r, logs_nil.
  - destruct (H k) as [[n En] [p Ep]]; [left|].
    assert (H' : ∀ k', k' ∈ pre →
              is_Some (field new_loc k') ∧ is_Some (field prev_loc k'))
      by (intros; apply H; by right).
    cbn [app location_changed_loop].
    rewrite (bind_subscript_Some _ _ _ _ _ En), (bind_subscript_Some _ _ _ _ _ Ep).
    unfold differs, notices. cbn [existsb flat_map]. rewrite En, Ep.
    fold (differs pre new_loc prev_loc). fold (notices pre new_loc prev_loc).
    destruct (decide (n = p)) as [->|Hne].
    + rewrite (bool_decide_eq_false_2 (p ≠ p)) by (intros E; by apply E).
      rewrite (bool_decide_eq_false_2 (Some p ≠ Some p)) by (intros E; by apply E).
      by rewrite IH.
    + rewrite (bool_decide_eq_true_2 (n ≠ p)) by assumption.
      rewrite (bool_decide_eq_true_2 (Some n ≠ Some p)) by congruence.
      rewrite (bind_subscript_Some _ _ _ _ _ Ep), (bind_subscript_Some _ _ _ _ _ En).
      rewrite bind_logger_warn, IH by assumption.
      fold (logs [LogRecord WARNING (MovedFrom k p n)] w).
      by rewrite logs_logs, orb_true_r.
Qed.

(** On two dicts, the comparator fails at the first attribute that one of
    them lacks, with a [KeyError] that names it; the notices for the
    attributes before it have been logged by then. *)
Theorem location_changed_raises_KeyError (new_d prev_d : gmap string atom)
    (pre post : list string) (k : string) (w : world) :
  attributes = pre ++ k :: post →
  (∀ k', k' ∈ pre → is_Some (new_d !! k') ∧ is_Some (prev_d !! k')) →
  new_d !! k = None ∨ prev_d !! k = None →
  location_changed (Dict new_d) (Dict prev_d) w
  = (inr (KeyError k), logs (notices pre (Dict new_d) (Dict prev_d)) w).
Proof.
  intros Hsplit Hpre Hk. unfold location_changed. cbn [is_None].
  rewrite Hsplit, (location_changed_loop_app pre (k :: post)) by exact Hpre.
  cbn [location_changed_loop]. unfold bind at 1. cbn [subscript].
  destruct (new_d !! k) as [n|] eqn:En; [|reflexivity].
  destruct Hk as [Hk|Hk]; [discriminate|].
  cbn [ret]. unfold bind at 1. cbn [subscript]. by rewrite Hk.
Qed.

Lemma location_changed_raises_KeyError_witness :
  location_changed (Dict (<["mcc" := AInt 310]> (<["mnc" := AInt 410]> ∅)))
    (Dict (<["mcc" := AInt 311]> ∅)) (World 0 [] [] 0 0)
  = (inr (KeyError "mnc"),
     logs (notices ["mcc"]
             (Dict (<["mcc" := AInt 310]> (<["mnc" := AInt 410]> ∅)))
             (Dict (<["mcc" := AInt 311]> ∅)))
       (World 0 [] [] 0 0)).
Proof.
  apply (location_changed_raises_KeyError
           (<["mcc" := AInt 310]> (<["mnc" := AInt 410]> ∅))
           (<["mcc" := AInt 311]> ∅)
           ["mcc"] ["lac"; "cellId"] "mnc" (World 0 [] [] 0 0)).
  - reflexivity.
  - intros k' Hk'. apply list_elem_of_singleton in Hk' as ->.
    split; eexists; reflexivity.
  - right. reflexivity.
Defined.

(** Whatever the arguments, what the loop logs is the notices of the
    attributes it got through, and it got through all of them when it
    returns. *)
Lemma location_changed_loop_prefix (attrs : list string)
    (new_loc prev_loc : value) :
  ∀ (result : bool) (w : world),
  ∃ r pre post,
    attrs = pre ++ post
    ∧ location_changed_loop attrs new_loc prev_loc result w
      = (r, logs (notices pre new_loc prev_loc) w)
    ∧ (∀ b : bool, r = inl b → post = []).
Proof.
  induction attrs as [|k rest IH]; intros result w.
  - exists (inl result), [], []. cbn. by rewrite logs_nil.
  - cbn [location_changed_loop].
    destruct (field new_loc k) as [n|] eqn:En.
    2:{ destruct (bind_subscript_None (S:=world) (B:=bool) new_loc k En)
          as [e He].
        rewrite He. exists (inr e), [], (k :: rest). by rewrite logs_nil. }
    rewrite (bind_subscript_Some _ _ _ _ _ En).
    destruct (field prev_loc k) as [p|] eqn:Ep.
    2:{ destruct (bind_subscript_None (S:=world) (B:=bool) prev_loc k Ep)
          as [e He].
        rewrite He. exists (inr e), [], (k :: rest). by rewrite logs_nil. }
    rewrite (bind_subscript_Some _ _ _ _ _ Ep).
    assert (Hk : ∀ pre, notices (k :: pre) new_loc prev_loc
                 = (if bool_decide (n ≠ p)
                    then [LogRecord WARNING (MovedFrom k p n)] else [])
                   ++ notices pre new_loc prev_loc).
    { intros pre. unfold notices. cbn [flat_map]. by rewrite En, Ep. }
    case_bool_decide.
    + rewrite (bind_subscript_Some _ _ _ _ _ Ep), (bind_subscript_Some _ _ _ _ _ En).
      rewrite bind_logger_warn.
      fold (logs [LogRecord WARNING (MovedFrom k p n)] w).
      destruct (IH true (logs [LogRecord WARNING (MovedFrom k p n)] w))
        as (r & pre & post & -> & -> & Hr).
      exists r, (k :: pre), post. rewrite Hk, logs_logs. by repeat split.
    + destruct (IH result w) as (r & pre & post & -> & -> & Hr).
      exists r, (k :: pre), post. rewrite Hk. by repeat split.
Qed.

(** Whatever its arguments, dicts or not, with the fields or without, the
    comparator changes nothing but the log, and what it adds to the log is
    the notices of a prefix of the four attributes: of all four when it
    returns with a baseline to compare to, of none when the baseline is
    [None]. *)
Theorem location_changed_logs_a_prefix_of_notices (new_loc prev_loc : value)
    (w : world) :
  ∃ r pre post,
    attributes = pre ++ post
    ∧ location_changed new_loc prev_loc w
      = (r, logs (notices pre new_loc prev_loc) w)
    ∧ (∀ b : bool, r = inl b →
         if is_None prev_loc then b = false ∧ pre = [] else post = []).
Proof.
  unfold location_changed. destruct (is_None prev_loc).
  - exists (inl false), [], attributes. rewrite logs_nil.
    repeat split; congruence.
  - apply location_changed_loop_prefix.
Qed.

(** ** The presence test *)

(** Without an [mcc] to read, the presence test raises, and what it raises
    is not an [ApiException]: a [KeyError] naming [mcc] on a dict, a
    [TypeError] on anything else, [None] included.  The state is untouched. *)
Theorem is_location_present_raises (loc : value) (w : world) :
  field loc "mcc" = None →
  ∃ e,
    is_location_present loc w = (inr e, w)
    ∧ is_ApiException e = false
    ∧ (∀ d, loc = Dict d → e = KeyError "mcc")
    ∧ (∀ a, loc = Atom a → ∃ detail, e = TypeError detail).
Proof.
  intros H. unfold is_location_present, bind.
  destruct loc as [[| |]|d]; cbn [subscript raise].
  1-3: eexists; repeat split; try done; intros a _; by eexists.
  cbn [field] in H. rewrite H. exists (KeyError "mcc").
  repeat split; done.
Qed.

Lemma is_location_present_raises_witness :
  ∃ e,
    is_location_present None_ (World 0 [] [] 0 0) = (inr e, World 0 [] [] 0 0)
    ∧ is_ApiException e = false
    ∧ (∀ d, None_ = Dict d → e = KeyError "mcc")
    ∧ (∀ a, None_ = Atom a → ∃ detail, e = TypeError detail).
Proof.
  apply (is_location_present_raises None_ (World 0 [] [] 0 0)).
  reflexivity.
Defined.

(** ** One tick, path by path *)

(** A request that raises: the tick logs that one error, through the first
    [except] clause for an [ApiException] and through the second for
    anything else, logs nothing before it, and passes its arguments on. *)
Theorem failed_request_is_reported (api : nat -> response) (a : arguments)
    (w : world) (e : exn) :
  outcome (api (requests w)) = inr e →
  get_location_and_make_noise api a w
  = (inl tt,
     ticked api w
       [LogRecord ERROR
          (if is_ApiException e then ApiProblem e else HorriblyWrong e)]
       a).
Proof.
  intros Ho. tick_path. rewrite Ho. tick_end.
  by rewrite with_original_location_same.
Qed.

Lemma failed_request_is_reported_witness :
  get_location_and_make_noise
    (fun _ => Response 30 (inr (OtherException "KeyboardInterrupt")))
    (Args "acct" "key" "imsi" "IMSI" None_) (World 0 [] [] 0 0)
  = (inl tt,
     ticked (fun _ => Response 30 (inr (OtherException "KeyboardInterrupt")))
       (World 0 [] [] 0 0)
       [LogRecord ERROR (HorriblyWrong (OtherException "KeyboardInterrupt"))]
       (Args "acct" "key" "imsi" "IMSI" None_)).
Proof.
  apply (failed_request_is_reported
           (fun _ => Response 30 (inr (OtherException "KeyboardInterrupt")))
           (Args "acct" "key" "imsi" "IMSI" None_) (World 0 [] [] 0 0)
           (OtherException "KeyboardInterrupt")).
  reflexivity.
Defined.

(** An answer without an [mcc] to read ([None], a dict without that key):
    the presence test raises, the tick logs the answer at debug severity and
    the exception through the second [except] clause, and passes its
    arguments on, so such an answer never becomes the baseline. *)
Theorem unusable_answer_is_reported (api : nat -> response) (a : arguments)
    (w : world) (loc : value) :
  outcome (api (requests w)) = inl loc →
  field loc "mcc" = None →
  ∃ e,
    fst (is_location_present loc w) = inr e
    ∧ get_location_and_make_noise api a w
      = (inl tt,
         ticked api w
           [LogRecord DEBUG (LatestLocation loc);
            LogRecord ERROR (HorriblyWrong e)]
           a).
Proof.
  intros Ho Hf.
  assert (∃ e, fst (is_location_present loc w) = inr e
               ∧ is_ApiException e = false) as (e & He & Hk).
  { unfold is_location_present, bind.
    destruct loc as [[| |]|d]; cbn [subscript raise fst];
      try by eexists.
    cbn [field] in Hf. rewrite Hf. by eexists. }
  exists e. split; [exact He|].
  tick_path. rewrite Ho, He. tick_end. unfold error_record. rewrite Hk.
  by rewrite with_original_location_same.
Qed.

Lemma unusable_answer_is_reported_witness :
  ∃ e,
    fst (is_location_present None_ (World 0 [] [] 0 0)) = inr e
    ∧ get_location_and_make_noise (fun _ => Response 2 (inl None_))
        (Args "acct" "key" "imsi" "IMSI" None_) (World 0 [] [] 0 0)
      = (inl tt,
         ticked (fun _ => Response 2 (inl None_)) (World 0 [] [] 0 0)
           [LogRecord DEBUG (LatestLocation None_);
            LogRecord ERROR (HorriblyWrong e)]
           (Args "acct" "key" "imsi" "IMSI" None_)).
Proof.
  apply (unusable_answer_is_reported (fun _ => Response 2 (inl None_))
           (Args "acct" "key" "imsi" "IMSI" None_) (World 0 [] [] 0 0) None_).
  - reflexivity.
  - reflexivity.
Defined.

(** The detection itself: with a baseline that has the four fields, and a
    present answer that has them too, the tick logs the answer at debug
    severity, then one notice per field that differs from the baseline, then
    the warning that the device moved if and only if some field differs; the
    baseline is passed on as it was. *)
Theorem movement_is_reported (api : nat -> response) (a : arguments)
    (w : world) (loc : value) :
  outcome (api (requests w)) = inl loc →
  fst (is_location_present loc w) = inl true →
  has_fields loc →
  has_fields (original_location a) →
  get_location_and_make_noise api a w
  = (inl tt,
     ticked api w
       ([LogRecord DEBUG (LatestLocation loc)]
        ++ notices attributes loc (original_location a)
        ++ (if differs attributes loc (original_location a)
            then [LogRecord WARNING DeviceMoved] else []))
       a).
Proof.
  intros Ho Hp Hl Hb. tick_path. rewrite Ho, Hp.
  rewrite (has_fields_not_None _ Hb). cbv beta iota.
  unfold location_changed at 1. rewrite (has_fields_not_None _ Hb).
  rewrite location_changed_loop_records by (by apply has_fields_elem).
  cbn [orb]. fold (logs (notices attributes loc (original_location a))
                     (logs [LogRecord DEBUG (LatestLocation loc)]
                        (after_fetch api w))).
  destruct (differs attributes loc (original_location a)); tick_end;
    rewrite with_original_location_same.
  - reflexivity.
  - by rewrite app_nil_r.
Qed.

Lemma movement_is_reported_witness :
  get_location_and_make_noise
    (fun _ => Response 2 (inl (location 310 410 2 8)))
    (Args "acct" "key" "imsi" "IMSI" (location 310 410 1 7))
    (World 0 [] [] 0 0)
  = (inl tt,
     ticked (fun _ => Response 2 (inl (location 310 410 2 8)))
       (World 0 [] [] 0 0)
       ([LogRecord DEBUG (LatestLocation (location 310 410 2 8))]
        ++ notices attributes (location 310 410 2 8) (location 310 410 1 7)
        ++ (if differs attributes (location 310 410 2 8)
                 (location 310 410 1 7)
            then [LogRecord WARNING DeviceMoved] else []))
       (Args "acct" "key" "imsi" "IMSI" (location 310 410 1 7))).
Proof.
  apply (movement_is_reported
           (fun _ => Response 2 (inl (location 310 410 2 8)))
           (Args "acct" "key" "imsi" "IMSI" (location 310 410 1 7))
           (World 0 [] [] 0 0) (location 310 410 2 8)).
  - reflexivity.
  - reflexivity.
  - apply (@bool_decide_unpack _ (has_fields_dec _)). vm_compute. exact I.
  - apply (@bool_decide_unpack _ (has_fields_dec _)). vm_compute. exact I.
Defined.

(** A baseline that lacks one of the four fields (one adopted from an
    incomplete answer) disables the detection for good: no tick ever logs
    that the device moved; a tick that gets a present answer ends in an error
    record instead; and the baseline is passed on as it is. *)
Theorem incomplete_baseline_never_reports (api : nat -> response)
    (a : arguments) (w : world) (k : string) :
  original_location a ≠ None_ →
  k ∈ attributes →
  field (original_location a) k = None →
  ∃ l,
    get_location_and_make_noise api a w = (inl tt, ticked api w l a)
    ∧ (LogRecord WARNING DeviceMoved ∉ l)
    ∧ (∀ loc, outcome (api (requests w)) = inl loc →
         fst (is_location_present loc w) = inl true →
         ∃ l0 e, l = l0 ++ [error_record e]).
Proof.
  intros Hb Hk Hf. apply is_None_false in Hb. tick_path.
  destruct (outcome (api (requests w))) as [v|e] eqn:Eo.
  2:{ tick_end. rewrite with_original_location_same.
      eexists. split; [reflexivity|]. split; [|by intros loc [=]].
      intros [=]%list_elem_of_singleton. }
  destruct (fst (is_location_present v w)) as [[|]|e] eqn:Ep.
  2:{ tick_end. rewrite with_original_location_same.
      eexists. split; [reflexivity|].
      split; [|intros loc [= <-] Hp; congruence].
      intros [=]%list_elem_of_singleton. }
  2:{ tick_end. rewrite with_original_location_same.
      eexists. split; [reflexivity|].
      split; [|intros loc [= <-] Hp; congruence].
      intros [[=]|[=]%list_elem_of_singleton]%elem_of_cons. }
  rewrite Hb. cbv beta iota.
  destruct (location_changed_frame v (original_location a)
      (logs [LogRecord DEBUG (LatestLocation v)] (after_fetch api w)))
    as (r & lc & E & Hlc).
  assert (∃ e, r = inr e) as [e ->].
  { unfold location_changed in E. rewrite Hb in E.
    destruct (location_changed_loop_raises attributes v (original_location a)
                k Hk (or_intror Hf) false
                (logs [LogRecord DEBUG (LatestLocation v)] (after_fetch api w)))
      as (e & w' & E').
    rewrite E' in E. exists e. congruence. }
  rewrite E. tick_end. rewrite with_original_location_same.
  eexists. split; [reflexivity|]. split.
  - rewrite Forall_forall in Hlc.
    intros [Hin|[Hin|Hin]%elem_of_app]%elem_of_app.
    + apply list_elem_of_singleton in Hin. discriminate.
    + destruct (Hlc _ Hin) as (? & ? & ? & [=]).
    + apply list_elem_of_singleton in Hin. discriminate.
  - intros loc _ _.
    by exists ([LogRecord DEBUG (LatestLocation v)] ++ lc), e.
Qed.

Lemma incomplete_baseline_never_reports_witness :
  ∃ l,
    get_location_and_make_noise
      (fun _ => Response 2 (inl (location 311 480 5 9)))
      (Args "acct" "key" "imsi" "IMSI" mcc_only) (World 0 [] [] 0 0)
    = (inl tt,
       ticked (fun _ => Response 2 (inl (location 311 480 5 9)))
         (World 0 [] [] 0 0) l (Args "acct" "key" "imsi" "IMSI" mcc_only))
    ∧ (LogRecord WARNING DeviceMoved ∉ l)
    ∧ (∀ loc,
         outcome (Response 2 (inl (location 311 480 5 9))) = inl loc →
         fst (is_location_present loc (World 0 [] [] 0 0)) = inl true →
         ∃ l0 e, l = l0 ++ [error_record e]).
Proof.
  apply (incomplete_baseline_never_reports
           (fun _ => Response 2 (inl (location 311 480 5 9)))
           (Args "acct" "key" "imsi" "IMSI" mcc_only) (World 0 [] [] 0 0)
           "lac").
  - discriminate.
  - apply (bool_decide_unpack _). vm_compute. exact I.
  - reflexivity.
Defined.

(** ** What a tick touches *)

Lemma length_heappush (q : list event) (e : event) :
  length (heappush q e) = S (length q).
Proof.
  induction q as [|x q IH]; [reflexivity|].
  cbn [heappush]. destruct (event_ltb e x); cbn [length]; by rewrite ?IH.
Qed.

Lemma elem_of_heappush (q : list event) (e x : event) :
  x ∈ heappush q e ↔ x = e ∨ x ∈ q.
Proof.
  induction q as [|y q IH].
  - cbn. rewrite list_elem_of_singleton. split; [by left|].
    intros [->|Hx]; [done|]. by apply elem_of_nil in Hx.
  - cbn [heappush]. destruct (event_ltb e y).
    + by rewrite elem_of_cons.
    + rewrite !elem_of_cons, IH. tauto.
Qed.

Lemma length_notices (attrs : list string) (new_loc prev_loc : value) :
  (length (notices attrs new_loc prev_loc) ≤ length attrs)%nat.
Proof.
  unfold notices. induction attrs as [|k rest IH]; [reflexivity|].
  cbn [flat_map length]. rewrite length_app.
  destruct (field new_loc k), (field prev_loc k); cbn [length]; try lia.
  case_bool_decide; cbn [length]; lia.
Qed.

(** The comparator adds at most four records to the log. *)
Lemma location_changed_bounded (new_loc prev_loc : value) (w : world) :
  ∃ r l, location_changed new_loc prev_loc w = (r, logs l w)
         ∧ (length l ≤ 4)%nat.
Proof.
  unfold location_changed. destruct (is_None prev_loc).
  - exists (inl false), []. rewrite logs_nil. split; [done|cbn; lia].
  - destruct (location_changed_loop_prefix attributes new_loc prev_loc false w)
      as (r & pre & post & Hsplit & E & _).
    exists r, (notices pre new_loc prev_loc). split; [exact E|].
    pose proof (length_notices pre new_loc prev_loc) as Hlen.
    apply (f_equal length) in Hsplit. rewrite length_app in Hsplit.
    cbn in Hsplit. lia.
Qed.

(** Whatever happens in it, a tick returns normally, makes exactly one
    request (no retry), lets the clock advance by the time of that request
    only, adds between one and six records to the log and changes none that
    was there, and adds exactly one event to the scheduler's queue, where the
    events that were pending stay. *)
Theorem tick_footprint (api : nat -> response) (a : arguments) (w : world) :
  ∃ w' l,
    get_location_and_make_noise api a w = (inl tt, w')
    ∧ requests w' = S (requests w)
    ∧ clock w' = clock w + elapsed (api (requests w))
    ∧ logger w' = logger w ++ l
    ∧ (1 ≤ length l ≤ 6)%nat
    ∧ counter w' = S (counter w)
    ∧ length (queue w') = S (length (queue w))
    ∧ (∀ x, x ∈ queue w → x ∈ queue w').
Proof.
  assert (Hticked : ∀ l v, (1 ≤ length l ≤ 6)%nat →
    let w' := ticked api w l (with_original_location a v) in
    requests w' = S (requests w)
    ∧ clock w' = clock w + elapsed (api (requests w))
    ∧ logger w' = logger w ++ l
    ∧ (1 ≤ length l ≤ 6)%nat
    ∧ counter w' = S (counter w)
    ∧ length (queue w') = S (length (queue w))
    ∧ (∀ x, x ∈ queue w → x ∈ queue w')).
  { intros l v Hl. cbn [ticked requests clock logger counter queue].
    repeat split; try done; try lia.
    - apply length_heappush.
    - intros x Hx. apply elem_of_heappush. by right. }
  tick_path.
  destruct (outcome (api (requests w))) as [v|e] eqn:Eo.
  2:{ tick_end. eexists _, _. split; [reflexivity|]. apply Hticked. cbn. lia. }
  destruct (fst (is_location_present v w)) as [[|]|e] eqn:Ep.
  2:{ tick_end. eexists _, _. split; [reflexivity|]. apply Hticked. cbn. lia. }
  2:{ tick_end. eexists _, _. split; [reflexivity|]. apply Hticked. cbn. lia. }
  destruct (is_None (original_location a)).
  - destruct (location_changed_same v
      (logs [LogRecord INFO (OriginalLocation v)]
         (logs [LogRecord DEBUG (LatestLocation v)] (after_fetch api w))))
      as [->|[e ->]]; tick_end;
      (eexists _, _; split; [reflexivity|]; apply Hticked; cbn; lia).
  - destruct (location_changed_bounded v (original_location a)
      (logs [LogRecord DEBUG (LatestLocation v)] (after_fetch api w)))
      as (r & lc & -> & Hlc).
    destruct r as [[|]|e]; tick_end;
      (eexists _, _; split; [reflexivity|]; apply Hticked;
       rewrite ?length_app; cbn [length]; rewrite ?length_app; cbn [length];
       lia).
Qed.


(** ** The loop, tick after tick *)

Lemma present_spec (v : value) (w : world) :
  fst (is_location_present v w) = inl true ↔ present v = true.
Proof.
  unfold present.
  rewrite (is_location_present_state v w (World 0 [] [] 0 0)). cbn [fst].
  destruct (fst (is_location_present v (World 0 [] [] 0 0))) as [[|]|e];
    split; congruence.
Qed.

Lemma present_is_not_None (v : value) : present v = true → is_None v = false.
Proof.
  intros H. apply (present_not_None v (World 0 [] [] 0 0)).
  by apply present_spec.
Qed.

(** The baseline a tick passes on: the one it received, or, having received
    [None], the answer to its request if that is a present location. *)
Lemma get_location_and_make_noise_baseline (api : nat -> response)
    (a : arguments) (w : world) :
  ∃ l,
    get_location_and_make_noise api a w
    = (inl tt,
       ticked api w l
         (with_original_location a
            (if is_None (original_location a)
             then first_present api (requests w) 1
             else original_location a))).
Proof.
  assert (Hnone : is_None (original_location a) = true →
                  original_location a = None_) by apply is_None_true.
  tick_path. cbn [first_present].
  destruct (outcome (api (requests w))) as [v|e] eqn:Eo.
  2:{ tick_end. eexists. do 3 f_equal.
      destruct (is_None (original_location a)); [by apply Hnone|done]. }
  destruct (fst (is_location_present v w)) as [[|]|e] eqn:Ep.
  - rewrite (proj1 (present_spec v w) Ep).
    destruct (is_None (original_location a)).
    + destruct (location_changed_frame v v
        (logs [LogRecord INFO (OriginalLocation v)]
           (logs [LogRecord DEBUG (LatestLocation v)] (after_fetch api w))))
        as (r & lc & -> & _).
      destruct r as [[|]|e]; tick_end; by eexists.
    + destruct (location_changed_frame v (original_location a)
        (logs [LogRecord DEBUG (LatestLocation v)] (after_fetch api w)))
        as (r & lc & -> & _).
      destruct r as [[|]|e]; tick_end; by eexists.
  - assert (present v = false) as ->.
    { destruct (present v) eqn:Ev; [|done].
      apply (present_spec v w) in Ev. congruence. }
    tick_end. eexists. do 3 f_equal.
    destruct (is_None (original_location a)); [by apply Hnone|done].
  - assert (present v = false) as ->.
    { destruct (present v) eqn:Ev; [|done].
      apply (present_spec v w) in Ev. congruence. }
    tick_end. eexists. do 3 f_equal.
    destruct (is_None (original_location a)); [by apply Hnone|done].
Qed.


Section Ticks.

Variable api : nat -> response.

(** As [two_iterations], with the baseline of the new event spelled out. *)
Lemma sleep_then_tick (w : world) (d : Z) (c : nat) (a : arguments) :
  0 < d →
  queue w = [Event (clock w + d) 1 c a] →
  counter w = S c →
  ∃ w',
    iterations api 2 w = Some w'
    ∧ queue w'
      = [Event (clock w' + LOCATION_REQUEST_PERIOD_SECONDS) 1 (S c)
           (with_original_location a
              (if is_None (original_location a)
               then first_present api (requests w) 1
               else original_location a))]
    ∧ counter w' = S (S c)
    ∧ requests w' = S (requests w)
    ∧ clock w' = clock w + d + elapsed (api (requests w)).
Proof.
  intros Hd Hq Hc. cbn [iterations]. unfold run_iteration at 1.
  rewrite Hq. cbn [time].
  assert ((clock w + d >? clock w) = true) as -> by lia.
  cbn [time_sleep snd]. unfold run_iteration.
  cbn [queue set_clock clock time argument]. rewrite Hq.
  cbn [time argument].
  assert ((clock w + d >? clock w + (clock w + d - clock w)) = false) as ->
    by lia.
  destruct (get_location_and_make_noise_baseline api a
              (set_queue [] (set_clock (clock w + (clock w + d - clock w)) w)))
    as (l & ->).
  eexists. split; [reflexivity|].
  cbn. rewrite Hc. repeat split; try reflexivity.
  - unfold next_event, after_fetch. cbn. do 2 f_equal. lia.
  - lia.
Qed.

(** Adopting at the first request and looking further from the second is
    looking from the first. *)
Lemma first_present_step (b : value) (r n : nat) :
  (if is_None (if is_None b then first_present api r 1 else b)
   then first_present api (S r) n
   else if is_None b then first_present api r 1 else b)
  = if is_None b then first_present api r (S n) else b.
Proof.
  destruct (is_None b) eqn:Eb; [|by rewrite Eb].
  cbn [first_present].
  destruct (outcome (api r)) as [v|e]; [|reflexivity].
  destruct (present v) eqn:Ev; [|reflexivity].
  by rewrite (present_is_not_None v Ev).
Qed.

(** From one pending event, due in [d > 0] seconds: the state after
    [n + 1] ticks. *)
Lemma ticks_from (n : nat) :
  ∀ (w : world) (d : Z) (c : nat) (acc key dev typ : string) (b : value),
    0 < d →
    queue w = [Event (clock w + d) 1 c (Args acc key dev typ b)] →
    counter w = S c →
    ∃ wn,
      iterations api (2 * S n) w = Some wn
      ∧ requests wn = (requests w + S n)%nat
      ∧ clock wn
        = clock w + d + elapsed_sum api (requests w) (S n)
          + LOCATION_REQUEST_PERIOD_SECONDS * Z.of_nat n
      ∧ queue wn
        = [Event (clock wn + LOCATION_REQUEST_PERIOD_SECONDS) 1 (c + S n)
             (Args acc key dev typ
                (if is_None b then first_present api (requests w) (S n)
                 else b))]
      ∧ counter wn = S (c + S n).
Proof.
  induction n as [|n IH]; intros w d c acc key dev typ b Hd Hq Hc.
  - destruct (sleep_then_tick w d c _ Hd Hq Hc)
      as (w' & E & Hq' & Hc' & Hr' & Hclk').
    exists w'. split; [exact E|]. split; [lia|].
    split; [cbn [elapsed_sum]; lia|].
    split; [|by rewrite Nat.add_1_r].
    by rewrite Hq', Nat.add_1_r.
  - destruct (sleep_then_tick w d c _ Hd Hq Hc)
      as (w' & E & Hq' & Hc' & Hr' & Hclk').
    cbn [with_original_location account_id api_key device_id device_id_type
         original_location] in Hq'.
    destruct (IH w' LOCATION_REQUEST_PERIOD_SECONDS (S c) acc key dev typ _
                eq_refl Hq' Hc')
      as (wn & En & Hrn & Hclkn & Hqn & Hcn).
    exists wn.
    replace (2 * S (S n))%nat with (2 + 2 * S n)%nat by lia.
    rewrite iterations_add, E, En.
    split; [reflexivity|]. split; [lia|]. split.
    { rewrite Hclkn, Hclk', Hr'. cbn [elapsed_sum]. lia. }
    split; [|lia].
    rewrite Hqn, Hr', (first_present_step b (requests w) (S n)).
    do 2 f_equal. lia.
Qed.

End Ticks.

(** The baseline is the first present location the API ever returned: after
    [n + 1] ticks of [begin_loop], the one pending event carries the
    credentials and the device given to [begin_loop], and as baseline the
    first present location among the [n + 1] answers so far, or [None] when
    there was none. *)
Theorem baseline_is_first_present_location (api : nat -> response)
    (acc key dev typ : string) (w : world) (n : nat) :
  ∃ w1 wn,
    begin_loop_enter acc key dev typ w = (inl tt, w1)
    ∧ iterations api (2 * S n) w1 = Some wn
    ∧ queue wn
      = [Event (clock wn + LOCATION_REQUEST_PERIOD_SECONDS) 1 (S n)
           (Args acc key dev typ (first_present api (requests w) (S n)))]
    ∧ begin_loop api acc key dev typ (2 * S n) w = Running wn.
Proof.
  eexists. 
  destruct (ticks_from api n
              (World (clock w) (logger w)
                 [Event (clock w + 1) 1 0 (Args acc key dev typ None_)] 1
                 (requests w))
              1 0%nat acc key dev typ None_)
    as (wn & E & _ & _ & Hq & _); [lia|reflexivity|reflexivity|].
  exists wn. split; [reflexivity|]. split; [exact E|]. split; [exact Hq|].
  exact (scheduler_run_going api _ _ _ E).
Qed.

(** The period runs from the end of one request to the start of the next,
    so the ticks drift by the time the requests take: the tick number
    [n + 1] of [begin_loop] ends one second, [n] periods and the time of
    all [n + 1] requests after the start, and [n + 1] requests have been
    made by then. *)
Theorem ticks_drift_by_request_time (api : nat -> response)
    (acc key dev typ : string) (w : world) (n : nat) :
  ∃ w1 wn,
    begin_loop_enter acc key dev typ w = (inl tt, w1)
    ∧ iterations api (2 * S n) w1 = Some wn
    ∧ requests wn = (requests w + S n)%nat
    ∧ clock wn
      = clock w + 1 + elapsed_sum api (requests w) (S n) + 3600 * Z.of_nat n
    ∧ begin_loop api acc key dev typ (2 * S n) w = Running wn.
Proof.
  eexists.
  destruct (ticks_from api n
              (World (clock w) (logger w)
                 [Event (clock w + 1) 1 0 (Args acc key dev typ None_)] 1
                 (requests w))
              1 0%nat acc key dev typ None_)
    as (wn & E & Hr & Hclk & _); [lia|reflexivity|reflexivity|].
  exists wn. split; [reflexivity|]. split; [exact E|]. split; [exact Hr|].
  split; [exact Hclk|]. exact (scheduler_run_going api _ _ _ E).
Qed.

(** The queue never drains: from any state with an event pending (one or
    several, due or not), every iteration of [scheduler.run()] leaves an
    event pending, so [run] never returns and never raises: whatever the
    fuel, it is still running, with an event pending. *)
Theorem scheduler_run_never_returns (api : nat -> response) (fuel : nat) :
  ∀ w : world,
    queue w ≠ [] →
    ∃ w', scheduler_run api fuel w = Running w' ∧ queue w' ≠ [].
Proof.
  induction fuel as [|fuel IH]; intros w Hq; [by exists w|].
  cbn [scheduler_run]. unfold run_iteration.
  destruct (queue w) as [|e rest] eqn:Eq; [done|].
  destruct (time e >? clock w).
  - apply IH. cbn. by rewrite Eq.
  - destruct (get_location_and_make_noise_summary api (argument e)
                (set_queue rest w)) as (l & next & -> & _).
    apply IH. cbn. intros Hnil.
    apply (f_equal length) in Hnil. by rewrite length_heappush in Hnil.
Qed.

Lemma scheduler_run_never_returns_witness :
  ∃ w',
    scheduler_run (fun _ => Response 2 (inr (ApiException "503"))) 9
      (World 50 []
         [Event 10 1 0 (Args "acct" "key" "imsi" "IMSI" None_);
          Event 99 1 1 (Args "acct" "key" "imsi" "IMSI" None_)]
         2 0)
    = Running w'
    ∧ queue w' ≠ [].
Proof.
  apply (scheduler_run_never_returns
           (fun _ => Response 2 (inr (ApiException "503"))) 9).
  discriminate.
Defined.


(** ** The logging configuration *)

Lemma filter_none {A} (P : A → Prop) `{∀ x, Decision (P x)} (l : list A) :
  Forall (fun x => ¬ P x) l → filter P l = [].
Proof.
  induction 1 as [|x l Hx _ IH]; [reflexivity|].
  by rewrite filter_cons_False.
Qed.

Lemma filter_all {A} (P : A → Prop) `{∀ x, Decision (P x)} (l : list A) :
  Forall P l → filter P l = l.
Proof.
  induction 1 as [|x l Hx _ IH]; [reflexivity|].
  by rewrite filter_cons_True, IH.
Qed.

(** The handler [configure_logging] installs lets no debug record through,
    whatever [level] the logger is given: once the logger is configured, no
    matter how often and with which levels, the debug call of a tick writes
    nothing, unless a handler set up elsewhere takes debug records. *)
Theorem debug_is_never_written (root lg : logger_object) (level : Z)
    (m : message) :
  Forall (fun h => levelno DEBUG < handler_level h) (handlers root) →
  Forall (fun h => levelno DEBUG < handler_level h) (handlers lg) →
  lines_written root (configure_logging level lg) (LogRecord DEBUG m) = O
  ∧ Forall (fun h => levelno DEBUG < handler_level h)
      (handlers (configure_logging level lg)).
Proof.
  intros Hroot Hlg.
  assert (Hnew : Forall (fun h => levelno DEBUG < handler_level h)
                   (handlers (configure_logging level lg))).
  { cbn [configure_logging handlers]. apply Forall_app. split; [done|].
    repeat constructor. }
  split; [|exact Hnew].
  unfold lines_written. cbn [severity].
  destruct (levelno DEBUG <? getEffectiveLevel root (configure_logging level lg));
    [reflexivity|].
  assert (Hall : Forall (fun h => ¬ handler_level h <= levelno DEBUG)
                   (handlers (configure_logging level lg) ++ handlers root)).
  { apply Forall_app. split.
    - eapply Forall_impl; [exact Hnew|]. cbn. lia.
    - eapply Forall_impl; [exact Hroot|]. cbn. lia. }
  destruct (handlers (configure_logging level lg) ++ handlers root)
    as [|h hs]; [reflexivity|].
  by rewrite (filter_none (fun h => handler_level h <= levelno DEBUG)).
Qed.

Lemma debug_is_never_written_witness :
  lines_written (Logger 30 [])
    (configure_logging 10 (configure_logging 20 unconfigured))
    (LogRecord DEBUG (LatestLocation None_)) = O
  ∧ Forall (fun h => levelno DEBUG < handler_level h)
      (handlers (configure_logging 10 (configure_logging 20 unconfigured))).
Proof.
  apply (debug_is_never_written (Logger 30 [])
           (configure_logging 20 unconfigured) 10 (LatestLocation None_)).
  - constructor.
  - repeat constructor.
Defined.

(** With the root logger left without handlers, configuring a fresh logger
    with a [level] other than [NOTSET] makes it write exactly the records at
    or above the higher of [level] and [INFO], once each, in order. *)
Theorem written_above_level_and_INFO (root : logger_object) (level : Z)
    (calls : list log_record) :
  handlers root = [] →
  level ≠ 0 →
  written root (configure_logging level unconfigured) calls
  = filter (fun r => Z.max level (levelno INFO) <= levelno (severity r)) calls.
Proof.
  intros Hroot Hlevel. unfold written.
  induction calls as [|r calls IH]; [reflexivity|].
  cbn [flat_map]. rewrite IH. clear IH.
  unfold lines_written, getEffectiveLevel.
  cbn [configure_logging logger_level handlers unconfigured app].
  rewrite Hroot. cbn [app].
  assert ((level =? 0) = false) as -> by lia.
  destruct (Z.ltb_spec (levelno (severity r)) level).
  - rewrite (filter_cons_False
               (fun r0 => Z.max level (levelno INFO) <= levelno (severity r0)))
      by (cbn; lia).
    reflexivity.
  - destruct (decide (levelno INFO <= levelno (severity r))).
    + rewrite (filter_cons_True
                 (fun h => handler_level h <= levelno (severity r))) by done.
      rewrite (filter_cons_True
                 (fun r0 => Z.max level (levelno INFO) <= levelno (severity r0)))
        by lia.
      reflexivity.
    + rewrite (filter_cons_False
                 (fun h => handler_level h <= levelno (severity r))) by done.
      rewrite (filter_cons_False
                 (fun r0 => Z.max level (levelno INFO) <= levelno (severity r0)))
        by lia.
      reflexivity.
Qed.

Lemma written_above_level_and_INFO_witness :
  written (Logger 30 []) (configure_logging 20 unconfigured)
    [LogRecord DEBUG (LatestLocation (location 310 410 1 8));
     LogRecord WARNING (MovedFrom "cellId" (AInt 7) (AInt 8));
     LogRecord WARNING DeviceMoved]
  = filter (fun r => Z.max 20 (levelno INFO) <= levelno (severity r))
      [LogRecord DEBUG (LatestLocation (location 310 410 1 8));
       LogRecord WARNING (MovedFrom "cellId" (AInt 7) (AInt 8));
       LogRecord WARNING DeviceMoved].
Proof.
  apply (written_above_level_and_INFO (Logger 30 []) 20).
  - reflexivity.
  - discriminate.
Defined.

Lemma configure_logging_again (levels : list Z) (lg : logger_object) :
  handlers (fold_left (fun g lv => configure_logging lv g) levels lg)
  = handlers lg
    ++ replicate (length levels)
         (StreamHandler (levelno INFO) "%(asctime)s %(levelname)s: %(message)s"
            "%Y-%m-%dT%H:%M:%S%z" "time.gmtime").
Proof.
  revert lg. induction levels as [|lv levels IH]; intros lg.
  - cbn. by rewrite app_nil_r.
  - cbn [fold_left length replicate]. rewrite IH.
    cbn [configure_logging handlers]. by rewrite <- app_assoc.
Qed.

(** Every call of [configure_logging] adds a handler to the same logger and
    removes none: after [k] calls, the last with a [level] the record
    reaches, a record at info severity or above is written [k] times. *)
Theorem configure_logging_twice_writes_twice (root : logger_object)
    (levels : list Z) (level : Z) (r : log_record) :
  handlers root = [] →
  level ≠ 0 →
  level <= levelno (severity r) →
  levelno INFO <= levelno (severity r) →
  lines_written root
    (fold_left (fun g lv => configure_logging lv g) (levels ++ [level])
       unconfigured)
    r
  = S (length levels).
Proof.
  intros Hroot Hlevel Hreach Hinfo.
  unfold lines_written, getEffectiveLevel.
  rewrite configure_logging_again, Hroot, app_nil_r.
  rewrite fold_left_app. cbn [fold_left configure_logging logger_level].
  assert ((level =? 0) = false) as -> by lia.
  assert ((levelno (severity r) <? level) = false) as -> by lia.
  rewrite length_app. cbn [length]. rewrite Nat.add_1_r.
  cbn [unconfigured handlers app replicate].
  rewrite (filter_all (fun h => handler_level h <= levelno (severity r))).
  - cbn [length]. by rewrite length_replicate.
  - constructor; [exact Hinfo|]. apply Forall_replicate. exact Hinfo.
Qed.

Lemma configure_logging_twice_writes_twice_witness :
  lines_written (Logger 30 [])
    (fold_left (fun g lv => configure_logging lv g) ([20] ++ [20])
       unconfigured)
    (LogRecord WARNING DeviceMoved)
  = 2%nat.
Proof.
  apply (configure_logging_twice_writes_twice (Logger 30 []) [20] 20
           (LogRecord WARNING DeviceMoved)).
  - reflexivity.
  - discriminate.
  - cbn. lia.
  - cbn. lia.
Defined.

(** ** A quiet hour *)

Lemma unchanged_fields (attrs : list string) (new_loc prev_loc : value) :
  (∀ k, k ∈ attrs → field new_loc k = field prev_loc k) →
  differs attrs new_loc prev_loc = false
  ∧ notices attrs new_loc prev_loc = [].
Proof.
  unfold differs, notices.
  induction attrs as [|k rest IH]; intros H; [done|].
  destruct IH as [IHd IHn]; [intros; apply H; by right|].
  cbn [existsb flat_map]. rewrite IHd, IHn, (H k) by left.
  rewrite (bool_decide_eq_false_2 (field prev_loc k ≠ field prev_loc k))
    by (intros E; by apply E).
  split; [reflexivity|].
  destruct (field prev_loc k) as [p|]; [|reflexivity].
  by rewrite (bool_decide_eq_false_2 (p ≠ p)) by (intros E; by apply E).
Qed.

(** With the logger configured as the script configures it, a tick whose
    answer agrees with the baseline on the four fields (whatever else differs
    in it) writes nothing at all: its only logger call is the debug one, for
    which the logger is not enabled. *)
Theorem unchanged_location_writes_nothing (api : nat -> response)
    (a : arguments) (w : world) (loc : value) (root : logger_object) :
  outcome (api (requests w)) = inl loc →
  fst (is_location_present loc w) = inl true →
  has_fields loc →
  has_fields (original_location a) →
  (∀ k, k ∈ attributes → field loc k = field (original_location a) k) →
  get_location_and_make_noise api a w
  = (inl tt, ticked api w [LogRecord DEBUG (LatestLocation loc)] a)
  ∧ written root (configure_logging (levelno INFO) unconfigured)
      [LogRecord DEBUG (LatestLocation loc)]
    = [].
Proof.
  intros Ho Hp Hl Hb Hsame. split.
  - destruct (unchanged_fields attributes loc (original_location a) Hsame)
      as [Hd Hn].
    tick_path. rewrite Ho, Hp.
    rewrite (has_fields_not_None _ Hb). cbv beta iota.
    unfold location_changed at 1. rewrite (has_fields_not_None _ Hb).
    rewrite location_changed_loop_records by (by apply has_fields_elem).
    rewrite Hd, Hn. cbn [orb].
    fold (logs [] (logs [LogRecord DEBUG (LatestLocation loc)]
                     (after_fetch api w))).
    rewrite logs_nil. tick_end. by rewrite with_original_location_same.
  - unfold written, lines_written, getEffectiveLevel. cbn. reflexivity.
Qed.

Lemma unchanged_location_writes_nothing_witness :
  get_location_and_make_noise
    (fun _ =>
       Response 2
         (inl (Dict (<["locationTimestamp" := AStr "2020-01-01T01:00"]>
                       (<["mcc" := AInt 310]> (<["mnc" := AInt 410]>
                       (<["lac" := AInt 1]> (<["cellId" := AInt 7]> ∅))))))))
    (Args "acct" "key" "imsi" "IMSI" (location 310 410 1 7))
    (World 0 [] [] 0 0)
  = (inl tt,
     ticked
       (fun _ =>
          Response 2
            (inl (Dict (<["locationTimestamp" := AStr "2020-01-01T01:00"]>
                          (<["mcc" := AInt 310]> (<["mnc" := AInt 410]>
                          (<["lac" := AInt 1]> (<["cellId" := AInt 7]> ∅))))))))
       (World 0 [] [] 0 0)
       [LogRecord DEBUG
          (LatestLocation
             (Dict (<["locationTimestamp" := AStr "2020-01-01T01:00"]>
                      (<["mcc" := AInt 310]> (<["mnc" := AInt 410]>
                      (<["lac" := AInt 1]> (<["cellId" := AInt 7]> ∅)))))))]
       (Args "acct" "key" "imsi" "IMSI" (location 310 410 1 7)))
  ∧ written (Logger 30 []) (configure_logging (levelno INFO) unconfigured)
      [LogRecord DEBUG
         (LatestLocation
            (Dict (<["locationTimestamp" := AStr "2020-01-01T01:00"]>
                     (<["mcc" := AInt 310]> (<["mnc" := AInt 410]>
                     (<["lac" := AInt 1]> (<["cellId" := AInt 7]> ∅)))))))]
    = [].
Proof.
  apply (unchanged_location_writes_nothing
           (fun _ =>
              Response 2
                (inl (Dict (<["locationTimestamp" := AStr "2020-01-01T01:00"]>
                              (<["mcc" := AInt 310]> (<["mnc" := AInt 410]>
                              (<["lac" := AInt 1]>
                              (<["cellId" := AInt 7]> ∅))))))))
           (Args "acct" "key" "imsi" "IMSI" (location 310 410 1 7))
           (World 0 [] [] 0 0) _ (Logger 30 [])).
  - reflexivity.
  - reflexivity.
  - apply (@bool_decide_unpack _ (has_fields_dec _)). vm_compute. exact I.
  - apply (@bool_decide_unpack _ (has_fields_dec _)). vm_compute. exact I.
  - intros k Hk. unfold attributes in Hk.
    repeat (apply elem_of_cons in Hk as [->|Hk]; [reflexivity|]).
    by apply elem_of_nil in Hk.
Defined.
